(** * stream-engine: the playlist player of segment-stream

    A shallow embedding of [src/engine/stream-engine.mjs]: the ordering
    policy [getOrderedClips], the engine-state persistence
    ([loadState] / [saveState]), the clip delivery adapter ([playClip])
    and the scheduler loop of [main].

    JavaScript objects are mutable and shared by reference, so clip objects
    live in a heap and arrays hold locations.  File-system reads are
    inputs of the model (what the engine observes), file-system writes and
    deliveries are recorded in a trace. *)

From Stdlib Require Import List ZArith String Bool Lia Arith.
From Stdlib Require Import Permutation Sorted.
Import ListNotations.

Local Open Scope Z_scope.
Local Open Scope list_scope.

(* ================================================================== *)
(** ** JavaScript numbers, as far as the engine needs them            *)
(* ================================================================== *)

(** The engine only subtracts integers (positions, time values) and looks
    at the sign of the result; the one non-integer it can meet is [NaN],
    the time value of an invalid [Date]. *)
Inductive number : Type :=
| Num (z : Z)
| NaN.

Definition minus (a b : number) : number :=
  match a, b with
  | Num x, Num y => Num (x - y)
  | _, _ => NaN
  end.

(* ================================================================== *)
(** ** Array.prototype.sort                                           *)
(* ================================================================== *)

(** [Array.prototype.sort] is stable; a comparator result of [NaN] is read
    as [+0] (ECMAScript, SortCompare).  For a consistent comparator every
    stable sort returns the same array; the model is insertion sort.  When
    the comparator answers [NaN] on some pairs (a clip without a valid
    date) the language leaves the order to the implementation: what is
    proved of an order or of a chosen clip is proved for dated clips, or
    does not depend on the order. *)
Section ArraySort.
Context {A : Type}.
Variable comparefn : A -> A -> number.

Definition SortCompare (x y : A) : Z :=
  match comparefn x y with
  | Num v => v
  | NaN => 0
  end.

Fixpoint insert (x : A) (sorted : list A) : list A :=
  match sorted with
  | [] => [x]
  | y :: rest =>
      if SortCompare x y <=? 0 then x :: sorted else y :: insert x rest
  end.

Definition sort (l : list A) : list A := fold_right insert [] l.
End ArraySort.

(** *** What the sort promises

    [keyed_on]: on the elements of [l] the comparator orders by the integer
    [key]; [key_le] is the order of the result, [has_key] a class of equal
    key. *)
Section Keys.
Context {A : Type}.
Variable comparefn : A -> A -> number.
Variable key : A -> Z.

Definition keyed_on (l : list A) : Prop :=
  forall a b, In a l -> In b l ->
    (SortCompare comparefn a b <=? 0) = (key a <=? key b).

Definition key_le (a b : A) : Prop := key a <= key b.

Definition has_key (k : Z) (a : A) : bool := key a =? k.
End Keys.

(* ================================================================== *)
(** ** Data model                                                     *)
(* ================================================================== *)

(** One entry of [playlist.json].  [position] is absent on most clips;
    [addedAt] holds the time value of [new Date(c.addedAt)], [None] when the
    date is missing or invalid; [_played] is the mark the engine sets in
    memory; [extra] keeps whatever other keys the entry has. *)
Record Clip : Type := mkClip {
  id : string;
  path : string;
  priority : string;
  position : option Z;
  addedAt : option Z;
  title : option string;
  _played : bool;
  extra : list (string * string)
}.

Definition Date (v : option Z) : number :=
  match v with
  | Some t => Num t
  | None => NaN
  end.

(** [c.position || 0] *)
Definition position_or_0 (c : Clip) : Z :=
  match position c with
  | Some p => p
  | None => 0
  end.

(** [clip._played = true] *)
Definition set_played (c : Clip) : Clip :=
  mkClip (id c) (path c) (priority c) (position c) (addedAt c) (title c)
         true (extra c).

(** *** The heap of clip objects *)

Definition loc : Type := nat.

Record Heap : Type := mkHeap {
  cell :> loc -> Clip;
  next : loc
}.

Definition alloc (c : Clip) (h : Heap) : loc * Heap :=
  (next h,
   mkHeap (fun l => if Nat.eqb l (next h) then c else h l) (S (next h))).

Fixpoint allocAll (cs : list Clip) (h : Heap) : list loc * Heap :=
  match cs with
  | [] => ([], h)
  | c :: rest =>
      let (l, h1) := alloc c h in
      let (ls, h2) := allocAll rest h1 in
      (l :: ls, h2)
  end.

Definition update (l : loc) (f : Clip -> Clip) (h : Heap) : Heap :=
  mkHeap (fun l' => if Nat.eqb l' l then f (h l) else h l') (next h).

(** *** Playlists *)

(** The parsed playlist object: [clips] is absent when the document has no
    such key; [others] are the remaining top-level keys. *)
Record Playlist : Type := mkPlaylist {
  clips : option (list loc);
  others : list (string * string)
}.

(** The same document as it sits in the file. *)
Record PlaylistJson : Type := mkPlaylistJson {
  json_clips : option (list Clip);
  json_others : list (string * string)
}.

(** [JSON.parse]: every parse builds fresh objects. *)
Definition parsePlaylist (j : PlaylistJson) (h : Heap) : Playlist * Heap :=
  match json_clips j with
  | None => (mkPlaylist None (json_others j), h)
  | Some cs =>
      let (ls, h') := allocAll cs h in
      (mkPlaylist (Some ls) (json_others j), h')
  end.

(** [JSON.stringify] *)
Definition stringifyPlaylist (h : Heap) (pl : Playlist) : PlaylistJson :=
  mkPlaylistJson (option_map (map (cell h)) (clips pl)) (others pl).

(* ================================================================== *)
(** ** Ordering policy                                                *)
(* ================================================================== *)

Definition has_priority (h : Heap) (p : string) (c : loc) : bool :=
  String.eqb (priority (h c)) p.

(** The three comparators, on the clips they are handed. *)
Definition by_position (a b : Clip) : number :=
  minus (Num (position_or_0 a)) (Num (position_or_0 b)).

Definition newest_first (a b : Clip) : number :=
  minus (Date (addedAt b)) (Date (addedAt a)).

Definition oldest_first (a b : Clip) : number :=
  minus (Date (addedAt a)) (Date (addedAt b)).

(** A comparator called on two elements of an array of objects. *)
Definition on_heap (h : Heap) (comparefn : Clip -> Clip -> number)
           (a b : loc) : number :=
  comparefn (h a) (h b).

Definition pinned_of (h : Heap) (arr : list loc) : list loc :=
  sort (on_heap h by_position) (filter (has_priority h "pinned") arr).

Definition breaking_of (h : Heap) (arr : list loc) : list loc :=
  sort (on_heap h newest_first) (filter (has_priority h "breaking") arr).

Definition normal_of (h : Heap) (arr : list loc) : list loc :=
  sort (on_heap h oldest_first) (filter (has_priority h "normal") arr).

Definition filler_of (h : Heap) (arr : list loc) : list loc :=
  filter (has_priority h "filler") arr.

Definition getOrderedClips (h : Heap) (playlist : option Playlist) : list loc :=
  match playlist with
  | Some pl =>
      match clips pl with
      | Some ((_ :: _) as arr) =>
          pinned_of h arr ++ breaking_of h arr ++ normal_of h arr
            ++ filler_of h arr
      | _ => []
      end
  | None => []
  end.

(* ================================================================== *)
(** ** Engine state and its file                                      *)
(* ================================================================== *)

Record EngineState : Type := mkState {
  running : bool;
  currentClipId : option string;
  currentIndex : Z;
  loopCount : Z;
  startedAt : string;
  clipsPlayed : Z;
  errors : Z
}.

(** The module-level initial value; [now] is [new Date().toISOString()] at
    process start. *)
Definition initialState (now : string) : EngineState :=
  mkState true None 0 0 now 0 0.

(** A parsed [engine-state.json]: each key is present or not. *)
Record StateJson : Type := mkStateJson {
  j_running : option bool;
  j_currentClipId : option (option string);
  j_currentIndex : option Z;
  j_loopCount : option Z;
  j_startedAt : option string;
  j_clipsPlayed : option Z;
  j_errors : option Z
}.

(** What a read of a JSON file can meet: no file, a file that
    [JSON.parse] rejects, or a parsed document. *)
Inductive File (A : Type) : Type :=
| Absent
| Garbled
| Parsed (doc : A).
Arguments Absent {A}.
Arguments Garbled {A}.
Arguments Parsed {A} doc.

Definition or_else {A : Type} (o : option A) (d : A) : A :=
  match o with
  | Some a => a
  | None => d
  end.

(** [{ ...engineState, ...parsed }] *)
Definition spread (s : EngineState) (j : StateJson) : EngineState :=
  mkState (or_else (j_running j) (running s))
          (or_else (j_currentClipId j) (currentClipId s))
          (or_else (j_currentIndex j) (currentIndex s))
          (or_else (j_loopCount j) (loopCount s))
          (or_else (j_startedAt j) (startedAt s))
          (or_else (j_clipsPlayed j) (clipsPlayed s))
          (or_else (j_errors j) (errors s)).

Definition loadState (f : File StateJson) (engineState : EngineState)
  : EngineState :=
  match f with
  | Parsed j => spread engineState j
  | Absent | Garbled => engineState
  end.

(** [JSON.stringify(engineState, null, 2)]: every key is written. *)
Definition stringifyState (s : EngineState) : StateJson :=
  mkStateJson (Some (running s)) (Some (currentClipId s))
              (Some (currentIndex s)) (Some (loopCount s))
              (Some (startedAt s)) (Some (clipsPlayed s)) (Some (errors s)).

(* ================================================================== *)
(** ** The machine: state, heap and trace                             *)
(* ================================================================== *)

(** How an ffmpeg child ends: a [close] event with its exit code ([None]
    when a signal killed it), or an [error] event. *)
Inductive FfmpegEnd : Type :=
| Close (code : option Z)
| SpawnError.

(** What the engine observes of the outside world during one step. A
    playlist document that parses to a falsy value is [Parsed None]; a
    truthy document that is not a playlist reads as one without [clips]. *)
Record World : Type := mkWorld {
  playlistFile : File (option PlaylistJson);
  existsSync : string -> bool;
  ffmpeg : string -> FfmpegEnd
}.

Inductive Event : Type :=
| Wait (ms : Z)
| WriteState (doc : StateJson)
| Breaking (c : Clip)
| NowPlaying (i total : nat) (c : Clip)
| ClipNotFound (clipPath : string)
| Stream (clipPath : string) (ending : FfmpegEnd)
| Transition
| WritePlaylist (doc : PlaylistJson).

Record Machine : Type := mkMachine {
  engineState : EngineState;
  heap : Heap;
  trace : list Event
}.

Inductive Result (A : Type) : Type :=
| Ok (a : A)
| Throw (e : string).
Arguments Ok {A} a.
Arguments Throw {A} e.

Definition M (A : Type) : Type := Machine -> Result (A * Machine).

Definition ret {A : Type} (a : A) : M A := fun m => Ok (a, m).

Definition bind {A B : Type} (c : M A) (k : A -> M B) : M B :=
  fun m =>
    match c m with
    | Ok (a, m') => k a m'
    | Throw e => Throw e
    end.

Definition throw {A : Type} (e : string) : M A := fun _ => Throw e.

Notation "x <- c ;; k" := (bind c (fun x => k))
  (at level 61, c at next level, right associativity).
Notation "c ;;; k" := (bind c (fun _ => k))
  (at level 61, right associativity).

Definition getState : M EngineState := fun m => Ok (engineState m, m).
Definition getHeap : M Heap := fun m => Ok (heap m, m).

Definition modifyState (f : EngineState -> EngineState) : M unit :=
  fun m => Ok (tt, mkMachine (f (engineState m)) (heap m) (trace m)).

Definition modifyHeap (f : Heap -> Heap) : M unit :=
  fun m => Ok (tt, mkMachine (engineState m) (f (heap m)) (trace m)).

Definition emit (e : Event) : M unit :=
  fun m => Ok (tt, mkMachine (engineState m) (heap m) (trace m ++ [e])).

(** [arr[i]] followed by a property access: [undefined] raises. *)
Definition at_index (arr : list loc) (i : nat) : M loc :=
  match nth_error arr i with
  | Some c => ret c
  | None => throw "TypeError: Cannot read properties of undefined"
  end.

Definition saveState : M unit :=
  s <- getState ;;
  emit (WriteState (stringifyState s)).

(** [loadPlaylist]: [null] for a missing or unparseable file, the parsed
    value otherwise; [None] also stands for a falsy parsed value, which
    every caller treats as [null]. *)
Definition loadPlaylist (f : File (option PlaylistJson)) : M (option Playlist) :=
  match f with
  | Absent => ret None
  | Garbled => ret None
  | Parsed None => ret None
  | Parsed (Some j) =>
      fun m =>
        let (pl, h') := parsePlaylist j (heap m) in
        Ok (Some pl, mkMachine (engineState m) h' (trace m))
  end.

Definition code_nonzero (code : option Z) : bool :=
  match code with
  | Some 0 => false
  | _ => true
  end.

(** [playClip]: resolves [1] when the file is missing or ffmpeg cannot be
    started, the exit code otherwise. *)
Definition playClip (w : World) (clipPath : string) : M (option Z) :=
  if negb (existsSync w clipPath) then
    emit (ClipNotFound clipPath) ;;;
    ret (Some 1)
  else
    emit (Stream clipPath (ffmpeg w clipPath)) ;;;
    match ffmpeg w clipPath with
    | Close code => ret code
    | SpawnError => ret (Some 1)
    end.

Definition playTransition : M unit := emit Transition.

Definition set_current (cid : string) (i : nat) (s : EngineState) : EngineState :=
  mkState (running s) (Some cid) (Z.of_nat i) (loopCount s) (startedAt s)
          (clipsPlayed s) (errors s).

Definition incr_errors (s : EngineState) : EngineState :=
  mkState (running s) (currentClipId s) (currentIndex s) (loopCount s)
          (startedAt s) (clipsPlayed s) (errors s + 1).

Definition incr_clipsPlayed (s : EngineState) : EngineState :=
  mkState (running s) (currentClipId s) (currentIndex s) (loopCount s)
          (startedAt s) (clipsPlayed s + 1) (errors s).

Definition incr_loopCount (s : EngineState) : EngineState :=
  mkState (running s) (currentClipId s) (currentIndex s) (loopCount s + 1)
          (startedAt s) (clipsPlayed s) (errors s).

(** [c.priority === 'breaking' && !c._played] *)
Definition pending_breaking (h : Heap) (c : loc) : bool :=
  has_priority h "breaking" c && negb (_played (h c)).

(* ================================================================== *)
(** ** The scheduler loop                                             *)
(* ================================================================== *)

(** What the engine observes during one turn of the [while] loop: at the
    load that opens it, at each play step, and at the prune that closes
    it. *)
Record Round : Type := mkRound {
  opening : World;
  at_step : nat -> World;
  closing : World
}.

Section Engine.
(** [queueDir] and [path.join] *)
Variable queueDir : string.
Variable join : string -> string -> string.

(** Lines 137-147: reload, look for pending breaking clips, choose the
    step's clip. *)
Definition selectClip (w : World) (playlist : Playlist)
           (ordered : list loc) (i : nat) : M loc :=
  freshPlaylist <- loadPlaylist (playlistFile w) ;;
  h <- getHeap ;;
  let freshOrdered :=
    getOrderedClips h (Some (or_else freshPlaylist playlist)) in
  let breaking := filter (pending_breaking h) freshOrdered in
  if (0 <? List.length breaking)%nat && (0 <? i)%nat then
    clip <- at_index breaking 0%nat ;;
    modifyHeap (update clip set_played) ;;;
    h' <- getHeap ;;
    emit (Breaking (h' clip)) ;;;
    ret clip
  else
    at_index ordered i.

(** Lines 149-162: deliver the chosen clip. *)
Definition deliver (w : World) (ordered : list loc) (i : nat) (clip : loc)
  : M unit :=
  h <- getHeap ;;
  let clipPath := join queueDir (path (h clip)) in
  emit (NowPlaying i (List.length ordered) (h clip)) ;;;
  modifyState (set_current (id (h clip)) i) ;;;
  saveState ;;;
  code <- playClip w clipPath ;;
  (if code_nonzero code then modifyState incr_errors else ret tt) ;;;
  modifyState incr_clipsPlayed ;;;
  playTransition.

Definition playStep (w : World) (playlist : Playlist) (ordered : list loc)
           (i : nat) : M unit :=
  clip <- selectClip w playlist ordered i ;;
  deliver w ordered i clip.

(** [for (let i = 0; i < ordered.length; i++)], with [n] the number of
    steps still to run. *)
Fixpoint forLoop (ws : nat -> World) (playlist : Playlist)
         (ordered : list loc) (n i : nat) : M unit :=
  match n with
  | O => ret tt
  | S n' =>
      playStep (ws i) playlist ordered i ;;;
      forLoop ws playlist ordered n' (S i)
  end.

(** Lines 169-173: the prune. *)
Definition prune (w : World) : M unit :=
  pl <- loadPlaylist (playlistFile w) ;;
  match pl with
  | Some pl =>
      match clips pl with
      | Some arr =>
          h <- getHeap ;;
          let kept := filter (fun c => negb (has_priority h "breaking" c)) arr in
          emit (WritePlaylist
                  (stringifyPlaylist h (mkPlaylist (Some kept) (others pl))))
      | None => throw "TypeError: Cannot read properties of undefined"
      end
  | None => ret tt
  end.

(** Lines 136-173: one pass over [ordered], then the prune. *)
Definition runPass (r : Round) (playlist : Playlist) (ordered : list loc)
  : M unit :=
  forLoop (at_step r) playlist ordered (List.length ordered) 0%nat ;;;
  modifyState incr_loopCount ;;;
  saveState ;;;
  prune (closing r).

(** One turn of [while (engineState.running)]. *)
Definition turn (r : Round) : M unit :=
  playlist <- loadPlaylist (playlistFile (opening r)) ;;
  match playlist with
  | None => emit (Wait 10000)
  | Some playlist =>
      h <- getHeap ;;
      let ordered := getOrderedClips h (Some playlist) in
      if (List.length ordered =? 0)%nat then emit (Wait 10000)
      else runPass r playlist ordered
  end.

(** The first [length rounds] turns of the loop. *)
Fixpoint whileRunning (rounds : list Round) : M unit :=
  match rounds with
  | [] => ret tt
  | r :: rest =>
      s <- getState ;;
      if running s then turn r ;;; whileRunning rest else ret tt
  end.

Definition main (stateFile : File StateJson) (rounds : list Round) : M unit :=
  modifyState (loadState stateFile) ;;;
  whileRunning rounds.

End Engine.

(** The machine at process start. *)
Definition emptyHeap : Heap :=
  mkHeap (fun _ => mkClip "" "" "" None None None false []) 0%nat.

Definition boot (now : string) : Machine :=
  mkMachine (initialState now) emptyHeap [].


(* ================================================================== *)
(** ** Notions used in the statements                                 *)
(* ================================================================== *)

(** The four priorities the engine knows. *)
Definition recognized (p : string) : bool :=
  String.eqb p "pinned" || String.eqb p "breaking" || String.eqb p "normal"
  || String.eqb p "filler".

(** [playlist.clips], empty when the key is missing. *)
Definition clips_of (pl : Playlist) : list loc := or_else (clips pl) [].

(** The time value of a clip whose date is valid. *)
Definition time_of (c : Clip) : Z := or_else (addedAt c) 0.

Definition has_date (c : Clip) : bool :=
  match addedAt c with
  | Some _ => true
  | None => false
  end.

(** Every breaking and every normal clip of [arr] carries a valid date, so
    that both comparators are consistent and the order of the result is
    fixed by the language. *)
Definition dated (h : Heap) (arr : list loc) : bool :=
  forallb (fun c =>
             implb (has_priority h "breaking" c || has_priority h "normal" c)
                   (has_date (h c)))
          arr.

(** Two clips tie when they sit in the same tier and the tier's comparator
    finds them equal; filler clips are never compared, so they all tie. *)
Definition tied (h : Heap) (a b : loc) : bool :=
  (has_priority h "pinned" a && has_priority h "pinned" b
   && (position_or_0 (h a) =? position_or_0 (h b)))
  || (has_priority h "breaking" a && has_priority h "breaking" b
      && (time_of (h a) =? time_of (h b)))
  || (has_priority h "normal" a && has_priority h "normal" b
      && (time_of (h a) =? time_of (h b)))
  || (has_priority h "filler" a && has_priority h "filler" b).

(** The playlist without the object [c]. *)
Definition without (c : loc) (pl : Playlist) : Playlist :=
  mkPlaylist (option_map (filter (fun x => negb (Nat.eqb x c))) (clips pl))
             (others pl).

(** A clip as the README writes one. *)
Definition clip (i pr : string) (pos t : option Z) : Clip :=
  mkClip i (String.append i ".mp4") pr pos t None false [].

(** The ordering scenario: two pinned clips out of order and two normal
    clips out of order. *)
Definition ordering_scenario (T0 T1 : Z) : PlaylistJson :=
  mkPlaylistJson
    (Some [clip "a" "pinned" (Some 1) None;
           clip "b" "pinned" (Some 0) None;
           clip "c" "normal" None (Some T1);
           clip "d" "normal" None (Some T0)])
    [].

(** A playlist whose only clip has the priority ["urgent"]. *)
Definition urgent_only : PlaylistJson :=
  mkPlaylistJson (Some [clip "u" "urgent" None (Some 10)]) [].

(** The ids of an array of clip objects. *)
Definition ids (h : Heap) (arr : list loc) : list string :=
  map (fun c => id (h c)) arr.

(** *** What one delivery leaves behind *)

(** What [playClip] resolves to. *)
Definition outcome (w : World) (clipPath : string) : option Z :=
  if existsSync w clipPath then
    match ffmpeg w clipPath with
    | Close code => code
    | SpawnError => Some 1
    end
  else Some 1.

Definition delivery_event (w : World) (clipPath : string) : Event :=
  if existsSync w clipPath then Stream clipPath (ffmpeg w clipPath)
  else ClipNotFound clipPath.

(** The engine state after the clip [c] went out at step [i]. *)
Definition after_delivery (w : World) (clipPath : string) (c : Clip) (i : nat)
           (s : EngineState) : EngineState :=
  let s1 := set_current (id c) i s in
  incr_clipsPlayed (if code_nonzero (outcome w clipPath) then incr_errors s1
                    else s1).

(** The events of delivering [c] at step [i] of [n]. *)
Definition delivery_trace (w : World) (clipPath : string) (c : Clip)
           (i n : nat) (s : EngineState) : list Event :=
  [NowPlaying i n c;
   WriteState (stringifyState (set_current (id c) i s));
   delivery_event w clipPath;
   Transition].

(** The ids announced by the [NowPlaying] events of a trace, in order. *)
Fixpoint now_playing (t : list Event) : list string :=
  match t with
  | [] => []
  | NowPlaying _ _ c :: rest => id c :: now_playing rest
  | _ :: rest => now_playing rest
  end.

(** The playlist documents written by a trace, in order. *)
Fixpoint playlist_writes (t : list Event) : list PlaylistJson :=
  match t with
  | [] => []
  | WritePlaylist doc :: rest => doc :: playlist_writes rest
  | _ :: rest => playlist_writes rest
  end.

(** A clip of the file that is breaking and not marked as played. *)
Definition pending (c : Clip) : bool :=
  String.eqb (priority c) "breaking" && negb (_played c).

(** The pending breaking clip that comes first among the clips [cs] of a
    freshly read document. *)
Definition top_pending (cs : list Clip) : option Clip :=
  hd_error
    (filter pending
            (sort newest_first
                  (filter (fun c => String.eqb (priority c) "breaking") cs))).

(** The [Wait]s of a trace, in order. *)
Fixpoint waits (t : list Event) : list Z :=
  match t with
  | [] => []
  | Wait ms :: rest => ms :: waits rest
  | _ :: rest => waits rest
  end.

(** [path.join] for the examples. *)
Definition simple_join (a b : string) : string :=
  String.append a (String.append "/" b).

(** The reads that make the scheduler wait: no file, a file that does not
    parse, a falsy document, or a document none of whose clips has a
    recognized priority (in particular one with no clips). *)
Definition nothing_to_play (f : File (option PlaylistJson)) : bool :=
  match f with
  | Absent | Garbled | Parsed None => true
  | Parsed (Some j) =>
      forallb (fun c => negb (recognized (priority c)))
              (or_else (json_clips j) [])
  end.

(** The reads after which [loadPlaylist] returns nothing. *)
Definition load_fails (f : File (option PlaylistJson)) : bool :=
  match f with
  | Absent | Garbled | Parsed None => true
  | Parsed (Some _) => false
  end.

(** *** The interruption scenario

    The pass starts on [x, y, z]; the breaking clip [w] is in the store
    from step 1 on. *)
Definition playlist_xyz : PlaylistJson :=
  mkPlaylistJson
    (Some [clip "x" "normal" None (Some 1);
           clip "y" "normal" None (Some 2);
           clip "z" "normal" None (Some 3)])
    [].

Definition playlist_xyzw : PlaylistJson :=
  mkPlaylistJson
    (Some [clip "x" "normal" None (Some 1);
           clip "y" "normal" None (Some 2);
           clip "z" "normal" None (Some 3);
           clip "w" "breaking" None (Some 4)])
    [].

Definition world_with (f : File (option PlaylistJson)) : World :=
  mkWorld f (fun _ => true) (fun _ => Close (Some 0)).

Definition interruption : Round :=
  mkRound (world_with (Parsed (Some playlist_xyz)))
          (fun i => match i with
                    | O => world_with (Parsed (Some playlist_xyz))
                    | _ => world_with (Parsed (Some playlist_xyzw))
                    end)
          (world_with (Parsed (Some playlist_xyzw))).

(** The machine once [playlist_xyz] has been loaded for a pass. *)
Definition loaded_xyz : Machine :=
  mkMachine (initialState "2026-02-21T12:00:00Z")
            (snd (parsePlaylist playlist_xyz emptyHeap)) [].

Definition pass_xyz : Playlist := fst (parsePlaylist playlist_xyz emptyHeap).



(** A pinned clip, a clip of priority ["urgent"] and a normal clip. *)
Definition playlist_with_urgent : PlaylistJson :=
  mkPlaylistJson
    (Some [clip "a" "pinned" (Some 0) None;
           clip "u" "urgent" None (Some 10);
           clip "c" "normal" None (Some 5)])
    [].

(** A world without the playlist file and without any clip file. *)
Definition bare_world : World :=
  mkWorld Absent (fun _ => false) (fun _ => Close (Some 0)).

(** A state as an earlier run of the engine saved it. *)
Definition saved_state : EngineState :=
  mkState true (Some "main"%string) 1 3 "2026-02-20T08:00:00Z" 12 2.

(* ================================================================== *)
(** ** The rest of the engine                                         *)
(* ================================================================== *)

(** *** Command line and environment (lines 17-19)

    [args.includes(x)], [args.indexOf(x)] with [-1] for "not there", and
    [args[k]] with [None] for [undefined]. *)
Definition includes (x : string) (args : list string) : bool :=
  existsb (String.eqb x) args.

Fixpoint indexOf (x : string) (args : list string) : Z :=
  match args with
  | [] => -1
  | a :: rest =>
      if String.eqb a x then 0
      else
        let k := indexOf x rest in
        if k <? 0 then -1 else k + 1
  end.

Definition element (args : list string) (k : Z) : option string :=
  if k <? 0 then None else nth_error args (Z.to_nat k).

(** [queueDir]; [fallback] is [join(process.cwd(), '.segment-stream',
    'queue')]. *)
Definition queueDir_of (fallback : string) (args : list string)
  : option string :=
  if includes "--queue" args then element args (indexOf "--queue" args + 1)
  else Some fallback.

(** [rtmpUrl]; [env] is [process.env.SEGMENT_STREAM_RTMP_URL], falsy when
    unset or empty. *)
Definition rtmpUrl_of (env : option string) (args : list string)
  : option string :=
  match env with
  | Some (String a s) => Some (String a s)
  | _ =>
      if includes "--rtmp" args then element args (indexOf "--rtmp" args + 1)
      else Some "rtmp://localhost:1935/live/marvin"%string
  end.

(** *** The signal handlers (lines 177-187)

    Both handlers clear [running] and save the state; the process exits
    when they return. *)
Definition set_running (b : bool) (s : EngineState) : EngineState :=
  mkState b (currentClipId s) (currentIndex s) (loopCount s) (startedAt s)
          (clipsPlayed s) (errors s).

Definition onSignal : M unit :=
  modifyState (set_running false) ;;;
  saveState.

(** *** Readings of a trace *)

(** The engine-state documents written by a trace, in order. *)
Fixpoint state_writes (t : list Event) : list StateJson :=
  match t with
  | [] => []
  | WriteState doc :: rest => doc :: state_writes rest
  | _ :: rest => state_writes rest
  end.

(** The clips announced by a trace, in order. *)
Fixpoint announced (t : list Event) : list Clip :=
  match t with
  | [] => []
  | NowPlaying _ _ c :: rest => c :: announced rest
  | _ :: rest => announced rest
  end.

Fixpoint transitions (t : list Event) : nat :=
  match t with
  | [] => O
  | Transition :: rest => S (transitions rest)
  | _ :: rest => transitions rest
  end.

(** A delivery that ends well: the file is there and ffmpeg closes with
    exit code 0. *)
Definition delivered_ok (w : World) (clipPath : string) : bool :=
  existsSync w clipPath
  && match ffmpeg w clipPath with
     | Close (Some 0) => true
     | _ => false
     end.

(** *** Conditions on what the engine reads *)

(** A read the prune can work on: anything but a parsed document without
    a [clips] array. *)
Definition prunable (f : File (option PlaylistJson)) : bool :=
  match f with
  | Parsed (Some j) =>
      match json_clips j with
      | Some _ => true
      | None => false
      end
  | _ => true
  end.



(** Two heaps that the ordering policy cannot tell apart on [arr]. *)
Definition same_order_keys (h h' : Heap) (arr : list loc) : Prop :=
  forall l, In l arr ->
    priority (h' l) = priority (h l)
    /\ position_or_0 (h' l) = position_or_0 (h l)
    /\ addedAt (h' l) = addedAt (h l).

(** An engine state never goes back. *)
Definition advances (s s' : EngineState) : Prop :=
  running s' = running s
  /\ startedAt s' = startedAt s
  /\ loopCount s <= loopCount s'
  /\ clipsPlayed s <= clipsPlayed s'
  /\ 0 <= errors s' - errors s <= clipsPlayed s' - clipsPlayed s.

(** A playlist in which two pinned clips share position 0, one of them by
    leaving the key out. *)
Definition playlist_pinned_pair : PlaylistJson :=
  mkPlaylistJson
    (Some [clip "p" "pinned" None None;
           clip "q" "pinned" (Some 0) None;
           clip "f" "filler" None None;
           clip "n" "normal" None (Some 7)])
    [].


(** What [n] play steps add to a trace: [n] announcements, [n] state
    writes, [n] transitions, no wait and no playlist write. *)
Definition plays (n : nat) (t t' : list Event) : Prop :=
  List.length (announced t') = (List.length (announced t) + n)%nat
  /\ List.length (state_writes t') = (List.length (state_writes t) + n)%nat
  /\ transitions t' = (transitions t + n)%nat
  /\ waits t' = waits t
  /\ playlist_writes t' = playlist_writes t.

(** The machine a play step leaves when it delivers the object [c] of the
    heap [h1], with [extra] already added to the trace. *)
Definition step_result (w : World) (clipPath : string) (n i : nat) (c : loc)
           (s : EngineState) (h1 : Heap) (t : list Event) : Machine :=
  mkMachine (after_delivery w clipPath (h1 c) i s) h1
            (t ++ delivery_trace w clipPath (h1 c) i n s).

(** A playlist with two breaking clips, and the machine once it has been
    loaded for a pass. *)
Definition playlist_two_breaking : PlaylistJson :=
  mkPlaylistJson
    (Some [clip "x" "normal" None (Some 1);
           clip "v" "breaking" None (Some 4);
           clip "w" "breaking" None (Some 5)])
    [].

Definition loaded_two_breaking : Machine :=
  mkMachine (initialState "2026-02-21T12:00:00Z")
            (snd (parsePlaylist playlist_two_breaking emptyHeap)) [].

Definition pass_two_breaking : Playlist :=
  fst (parsePlaylist playlist_two_breaking emptyHeap).


(** Some clip of [arr] is breaking and not marked as played. *)
Definition has_pending (h : Heap) (arr : list loc) : bool :=
  existsb (pending_breaking h) arr.

(** The breaking clips of a document all carry a valid date. *)
Definition breaking_dated (cs : list Clip) : Prop :=
  forall c, In c cs -> priority c = "breaking"%string -> addedAt c <> None.


(** [c] is the one pending breaking clip of [cs] with the latest date:
    a pending breaking clip dated no earlier than [c] is [c] itself. *)
Definition strictly_latest (c : Clip) (cs : list Clip) : Prop :=
  In c cs /\ pending c = true
  /\ forall x, In x cs -> pending x = true -> time_of c <= time_of x -> x = c.

(** Three normal clips, the middle one without a date. *)
Definition normals_one_undated : PlaylistJson :=
  mkPlaylistJson
    (Some [clip "c0" "normal" None (Some 3);
           clip "c2" "normal" None None;
           clip "c1" "normal" None (Some 1)])
    [].

(* ================================================================== *)
(** ** Facts about the sort                                           *)
(* ================================================================== *)

Lemma filter_nil_or_witness {A : Type} (p : A -> bool) (l : list A) :
  filter p l = [] \/ exists a, In a l /\ p a = true.
Proof.
  induction l as [|x l IH]; simpl.
  - now left.
  - destruct (p x) eqn:E.
    + right. exists x. auto.
    + destruct IH as [IH|[a [Ha Hp]]]; [now left|].
      right. exists a. auto.
Qed.

Lemma filter_twice {A : Type} (p q : A -> bool) (l : list A) :
  filter q (filter p l) = filter (fun a => p a && q a) l.
Proof.
  induction l as [|x l IH]; simpl; [reflexivity|].
  destruct (p x); simpl; [destruct (q x)|]; now rewrite IH.
Qed.

Lemma filter_none {A : Type} (p : A -> bool) (l : list A) :
  (forall a, In a l -> p a = false) -> filter p l = [].
Proof.
  induction l as [|x l IH]; simpl; intros H; [reflexivity|].
  rewrite (H x) by auto. apply IH. auto.
Qed.

Section SortFacts.
Context {A : Type}.
Variable comparefn : A -> A -> number.

Lemma insert_perm (x : A) (l : list A) :
  Permutation (insert comparefn x l) (x :: l).
Proof.
  induction l as [|y l IH]; simpl; [reflexivity|].
  destruct (SortCompare comparefn x y <=? 0); [reflexivity|].
  rewrite IH. apply perm_swap.
Qed.

Lemma sort_perm (l : list A) : Permutation (sort comparefn l) l.
Proof.
  induction l as [|x l IH]; simpl; [reflexivity|].
  rewrite insert_perm. now constructor.
Qed.

Lemma sort_In (l : list A) (x : A) : In x (sort comparefn l) <-> In x l.
Proof.
  split; apply Permutation_in; [|symmetry]; apply sort_perm.
Qed.

Variable key : A -> Z.

Lemma keyed_on_tail (x : A) (l : list A) :
  keyed_on comparefn key (x :: l) -> keyed_on comparefn key l.
Proof. intros H a b Ha Hb. apply H; now right. Qed.

Lemma keyed_on_perm (l l' : list A) :
  Permutation l l' -> keyed_on comparefn key l -> keyed_on comparefn key l'.
Proof.
  intros P H a b Ha Hb.
  apply H; eapply Permutation_in; try eassumption; now symmetry.
Qed.

Lemma insert_sorted (x : A) (l : list A) :
  keyed_on comparefn key (x :: l) ->
  StronglySorted (key_le key) l -> StronglySorted (key_le key) (insert comparefn x l).
Proof.
  intros K S. induction S as [|y l S IH Hy]; simpl.
  - repeat constructor.
  - rewrite (K x y) by (simpl; auto).
    destruct (key x <=? key y) eqn:E.
    + apply Z.leb_le in E. constructor; [now constructor|].
      constructor; [exact E|].
      rewrite Forall_forall in *. intros z Hz.
      specialize (Hy z Hz). unfold key_le in *. lia.
    + apply Z.leb_gt in E. constructor.
      * apply IH. intros a b Ha Hb. apply K; simpl in *; tauto.
      * rewrite Forall_forall in *. intros z Hz.
        apply (Permutation_in _ (insert_perm x l)) in Hz.
        destruct Hz as [<-|Hz]; [unfold key_le; lia|auto].
Qed.

Lemma sort_sorted (l : list A) :
  keyed_on comparefn key l -> StronglySorted (key_le key) (sort comparefn l).
Proof.
  induction l as [|x l IH]; simpl; intros K; [constructor|].
  apply insert_sorted.
  - eapply keyed_on_perm; [|exact K].
    constructor. symmetry. apply sort_perm.
  - apply IH. eapply keyed_on_tail; eassumption.
Qed.

Lemma insert_stable (k : Z) (x : A) (l : list A) :
  keyed_on comparefn key (x :: l) ->
  filter (has_key key k) (insert comparefn x l) = filter (has_key key k) (x :: l).
Proof.
  induction l as [|y l IH]; intros K; [reflexivity|].
  simpl insert. rewrite (K x y) by (simpl; auto).
  destruct (key x <=? key y) eqn:E; [reflexivity|].
  apply Z.leb_gt in E.
  change (filter (has_key key k) (y :: insert comparefn x l))
    with (if has_key key k y then y :: filter (has_key key k) (insert comparefn x l)
          else filter (has_key key k) (insert comparefn x l)).
  rewrite IH by (intros a b Ha Hb; apply K; simpl in *; tauto).
  simpl. unfold has_key.
  destruct (key y =? k) eqn:Ey, (key x =? k) eqn:Ex; try reflexivity.
  apply Z.eqb_eq in Ey, Ex. lia.
Qed.

(** Stability: clips of equal key leave the sort in the order in which
    they entered it. *)
Lemma sort_stable (k : Z) (l : list A) :
  keyed_on comparefn key l ->
  filter (has_key key k) (sort comparefn l) = filter (has_key key k) l.
Proof.
  induction l as [|x l IH]; intros K; [reflexivity|].
  simpl sort. rewrite insert_stable.
  - simpl. rewrite IH by (eapply keyed_on_tail; eassumption). reflexivity.
  - eapply keyed_on_perm; [|exact K].
    constructor. symmetry. apply sort_perm.
Qed.

(** A key-sorted list is determined by its classes of equal key. *)
Lemma sorted_unique (l1 l2 : list A) :
  StronglySorted (key_le key) l1 -> StronglySorted (key_le key) l2 ->
  (forall k, filter (has_key key k) l1 = filter (has_key key k) l2) ->
  l1 = l2.
Proof.
  intros S1. revert l2.
  induction S1 as [|a l1 S1 IH Ha]; intros l2 S2 F.
  - destruct l2 as [|b l2]; [reflexivity|].
    specialize (F (key b)). simpl in F. unfold has_key in F.
    rewrite Z.eqb_refl in F. discriminate.
  - destruct S2 as [|b l2 S2 Hb].
    + specialize (F (key a)). simpl in F. unfold has_key in F.
      rewrite Z.eqb_refl in F. discriminate.
    + assert (Hab : key b <= key a).
      { pose proof (F (key a)) as Fa. simpl in Fa. unfold has_key in Fa.
        rewrite Z.eqb_refl in Fa.
        destruct (key b =? key a) eqn:E; [apply Z.eqb_eq in E; lia|].
        assert (In a (filter (fun x => key x =? key a) l2))
          by (rewrite <- Fa; now left).
        apply filter_In in H. destruct H as [H _].
        rewrite Forall_forall in Hb. apply (Hb a H). }
      assert (Hba : key a <= key b).
      { pose proof (F (key b)) as Fb. simpl in Fb. unfold has_key in Fb.
        rewrite Z.eqb_refl in Fb.
        destruct (key a =? key b) eqn:E; [apply Z.eqb_eq in E; lia|].
        assert (In b (filter (fun x => key x =? key b) l1))
          by (rewrite Fb; now left).
        apply filter_In in H. destruct H as [H _].
        rewrite Forall_forall in Ha. apply (Ha b H). }
      assert (a = b).
      { pose proof (F (key a)) as Fa. simpl in Fa. unfold has_key in Fa.
        rewrite Z.eqb_refl in Fa.
        replace (key b =? key a) with true in Fa
          by (symmetry; apply Z.eqb_eq; lia).
        congruence. }
      subst b. f_equal. apply IH; [exact S2|].
      intros k. specialize (F k). simpl in F.
      destruct (has_key key k a); congruence.
Qed.
End SortFacts.

(* ================================================================== *)
(** ** Facts about the heap                                           *)
(* ================================================================== *)

Lemma allocAll_spec (cs : list Clip) (h : Heap) :
  fst (allocAll cs h) = seq (next h) (List.length cs)
  /\ next (snd (allocAll cs h)) = (next h + List.length cs)%nat
  /\ map (cell (snd (allocAll cs h))) (fst (allocAll cs h)) = cs
  /\ (forall l, (l < next h)%nat -> snd (allocAll cs h) l = h l).
Proof.
  revert h. induction cs as [|c cs IH]; intros h.
  - simpl. repeat split; auto.
  - cbn [allocAll alloc].
    specialize (IH (mkHeap (fun l => if Nat.eqb l (next h) then c else h l)
                           (S (next h)))).
    destruct (allocAll cs _) as [ls h2].
    cbn [fst snd next cell List.length seq map] in *.
    destruct IH as (I1 & I2 & I3 & I4).
    repeat split.
    + now rewrite I1.
    + rewrite I2. lia.
    + rewrite I4 by lia. rewrite Nat.eqb_refl. now rewrite I3.
    + intros l Hl. rewrite I4 by lia.
      destruct (Nat.eqb l (next h)) eqn:El; [|reflexivity].
      apply Nat.eqb_eq in El. lia.
Qed.

(** A parse returns fresh objects that hold the document's clips and
    leaves every object that existed before untouched. *)
Lemma parsePlaylist_spec (j : PlaylistJson) (h : Heap) :
  let pl := fst (parsePlaylist j h) in
  let h' := snd (parsePlaylist j h) in
  stringifyPlaylist h' pl = j
  /\ others pl = json_others j
  /\ option_map (map (cell h')) (clips pl) = json_clips j
  /\ (forall l, In l (clips_of pl) -> (next h <= l)%nat)
  /\ (next h <= next h')%nat
  /\ (forall l, (l < next h)%nat -> h' l = h l).
Proof.
  unfold parsePlaylist, stringifyPlaylist, clips_of.
  destruct j as [[cs|] o]; simpl.
  - pose proof (allocAll_spec cs h) as (A1 & A2 & A3 & A4).
    destruct (allocAll cs h) as [ls h2]. simpl in *.
    rewrite A3. repeat split; auto; [|lia].
    intros l Hl. rewrite A1 in Hl. apply in_seq in Hl. lia.
  - repeat split; auto. intros l [].
Qed.

(* ================================================================== *)
(** ** Facts about the ordering policy                                *)
(* ================================================================== *)

Lemma getOrderedClips_tiers (h : Heap) (pl : Playlist) :
  getOrderedClips h (Some pl) =
  pinned_of h (clips_of pl) ++ breaking_of h (clips_of pl)
    ++ normal_of h (clips_of pl) ++ filler_of h (clips_of pl).
Proof.
  unfold getOrderedClips, clips_of.
  destruct (clips pl) as [[|c arr]|]; reflexivity.
Qed.

Lemma recognized_iff (p : string) :
  recognized p = true <->
  p = "pinned"%string \/ p = "breaking"%string \/ p = "normal"%string
  \/ p = "filler"%string.
Proof.
  unfold recognized. rewrite !orb_true_iff, !String.eqb_eq. tauto.
Qed.

Lemma In_getOrderedClips (h : Heap) (pl : Playlist) (c : loc) :
  In c (getOrderedClips h (Some pl)) <->
  In c (clips_of pl) /\ recognized (priority (h c)) = true.
Proof.
  rewrite getOrderedClips_tiers, recognized_iff.
  unfold pinned_of, breaking_of, normal_of, filler_of.
  rewrite !in_app_iff, !sort_In, !filter_In.
  unfold has_priority. rewrite !String.eqb_eq. tauto.
Qed.

Lemma by_position_keyed (h : Heap) (l : list loc) :
  keyed_on (on_heap h by_position) (fun c => position_or_0 (h c)) l.
Proof.
  intros a b _ _. unfold SortCompare, on_heap, by_position. simpl.
  destruct (position_or_0 (h a) - position_or_0 (h b) <=? 0) eqn:E;
    symmetry; [apply Z.leb_le; apply Z.leb_le in E
              |apply Z.leb_gt; apply Z.leb_gt in E]; lia.
Qed.

Lemma dated_In (h : Heap) (arr : list loc) (c : loc) :
  dated h arr = true -> In c arr ->
  has_priority h "breaking" c || has_priority h "normal" c = true ->
  addedAt (h c) = Some (time_of (h c)).
Proof.
  unfold dated. rewrite forallb_forall. intros D Hc Hp.
  specialize (D c Hc). rewrite Hp in D. simpl in D.
  unfold has_date, time_of in *. destruct (addedAt (h c)); [reflexivity|discriminate].
Qed.

Lemma newest_first_keyed (h : Heap) (arr : list loc) :
  dated h arr = true ->
  keyed_on (on_heap h newest_first) (fun c => - time_of (h c))
           (filter (has_priority h "breaking") arr).
Proof.
  intros D a b Ha Hb. apply filter_In in Ha, Hb.
  destruct Ha as [Ha Pa], Hb as [Hb Pb].
  unfold SortCompare, on_heap, newest_first.
  rewrite (dated_In h arr a), (dated_In h arr b); auto;
    try (rewrite ?Pa, ?Pb; reflexivity).
  simpl.
  destruct (time_of (h b) - time_of (h a) <=? 0) eqn:E;
    symmetry; [apply Z.leb_le; apply Z.leb_le in E
              |apply Z.leb_gt; apply Z.leb_gt in E]; lia.
Qed.

Lemma oldest_first_keyed (h : Heap) (arr : list loc) :
  dated h arr = true ->
  keyed_on (on_heap h oldest_first) (fun c => time_of (h c))
           (filter (has_priority h "normal") arr).
Proof.
  intros D a b Ha Hb. apply filter_In in Ha, Hb.
  destruct Ha as [Ha Pa], Hb as [Hb Pb].
  unfold SortCompare, on_heap, oldest_first.
  rewrite (dated_In h arr a), (dated_In h arr b); auto;
    try (rewrite ?Pa, ?Pb; apply orb_true_r).
  simpl.
  destruct (time_of (h a) - time_of (h b) <=? 0) eqn:E;
    symmetry; [apply Z.leb_le; apply Z.leb_le in E
              |apply Z.leb_gt; apply Z.leb_gt in E]; lia.
Qed.

Lemma dated_perm (h : Heap) (l l' : list loc) :
  Permutation l l' -> dated h l = true -> dated h l' = true.
Proof.
  unfold dated. rewrite !forallb_forall. intros P D c Hc.
  apply D. eapply Permutation_in; [symmetry|]; eassumption.
Qed.

Lemma tied_pinned (h : Heap) (c x : loc) :
  has_priority h "pinned" c = true ->
  tied h c x =
  has_priority h "pinned" x
  && has_key (fun a => position_or_0 (h a)) (position_or_0 (h c)) x.
Proof.
  unfold tied, has_priority, has_key. intros H. apply String.eqb_eq in H.
  rewrite H. simpl. rewrite !orb_false_r.
  now rewrite (Z.eqb_sym (position_or_0 (h c))).
Qed.

Lemma tied_breaking (h : Heap) (c x : loc) :
  has_priority h "breaking" c = true ->
  tied h c x =
  has_priority h "breaking" x
  && has_key (fun a => - time_of (h a)) (- time_of (h c)) x.
Proof.
  unfold tied, has_priority, has_key. intros H. apply String.eqb_eq in H.
  rewrite H. simpl. rewrite !orb_false_r. f_equal.
  destruct (time_of (h c) =? time_of (h x)) eqn:E;
    symmetry; [apply Z.eqb_eq; apply Z.eqb_eq in E
              |apply Z.eqb_neq; apply Z.eqb_neq in E]; lia.
Qed.

Lemma tied_normal (h : Heap) (c x : loc) :
  has_priority h "normal" c = true ->
  tied h c x =
  has_priority h "normal" x
  && has_key (fun a => time_of (h a)) (time_of (h c)) x.
Proof.
  unfold tied, has_priority, has_key. intros H. apply String.eqb_eq in H.
  rewrite H. simpl. rewrite !orb_false_r.
  now rewrite (Z.eqb_sym (time_of (h c))).
Qed.

Lemma tied_filler (h : Heap) (c x : loc) :
  has_priority h "filler" c = true ->
  tied h c x = has_priority h "filler" x.
Proof.
  unfold tied, has_priority. intros H. apply String.eqb_eq in H.
  rewrite H. reflexivity.
Qed.

(** Two arrays with the same classes of tied clips sort to the same tier. *)
Lemma tier_invariant (h : Heap) (p : string) (comparefn : loc -> loc -> number)
      (key : loc -> Z) (arr arr2 : list loc) :
  keyed_on comparefn key (filter (has_priority h p) arr) ->
  keyed_on comparefn key (filter (has_priority h p) arr2) ->
  (forall c x, has_priority h p c = true ->
               tied h c x = has_priority h p x && has_key key (key c) x) ->
  (forall c, filter (tied h c) arr = filter (tied h c) arr2) ->
  sort comparefn (filter (has_priority h p) arr)
  = sort comparefn (filter (has_priority h p) arr2).
Proof.
  intros K1 K2 T F.
  apply (sorted_unique key); try now apply sort_sorted.
  intros k. rewrite !sort_stable, !filter_twice by assumption.
  destruct (filter_nil_or_witness
              (fun a => has_priority h p a && has_key key k a) (arr ++ arr2))
    as [N|[c [I H]]].
  - rewrite filter_app in N. apply app_eq_nil in N. destruct N; congruence.
  - apply andb_true_iff in H. destruct H as [Hp Hk].
    unfold has_key in Hk. apply Z.eqb_eq in Hk. subst k.
    rewrite <- !(filter_ext _ _ (fun x => T c x Hp)). apply F.
Qed.

Lemma filler_invariant (h : Heap) (arr arr2 : list loc) :
  (forall c, filter (tied h c) arr = filter (tied h c) arr2) ->
  filler_of h arr = filler_of h arr2.
Proof.
  intros F. unfold filler_of.
  destruct (filter_nil_or_witness (has_priority h "filler") (arr ++ arr2))
    as [N|[c [I H]]].
  - rewrite filter_app in N. apply app_eq_nil in N. destruct N; congruence.
  - rewrite <- !(filter_ext _ _ (fun x => tied_filler h c x H)). apply F.
Qed.

Lemma filter_without (h : Heap) (p : string) (c : loc) (arr : list loc) :
  has_priority h p c = false ->
  filter (has_priority h p) (filter (fun x => negb (Nat.eqb x c)) arr)
  = filter (has_priority h p) arr.
Proof.
  intros H. rewrite filter_twice. apply filter_ext. intros x.
  destruct (Nat.eqb x c) eqn:E; [|reflexivity].
  apply Nat.eqb_eq in E. subst x. now rewrite H.
Qed.

Lemma unrecognized_has_no_tier (p q : string) :
  recognized p = false -> recognized q = true -> String.eqb p q = false.
Proof.
  intros Hp Hq. destruct (String.eqb p q) eqn:E; [|reflexivity].
  apply String.eqb_eq in E. congruence.
Qed.

(* ================================================================== *)
(** ** C1: clips of an unrecognized priority                          *)
(* ================================================================== *)

(** C1, as stated, fails: the playlist whose only clip has priority
    ["urgent"] orders to the empty sequence, so the clip is neither in the
    filler bucket nor anywhere in the baseline sequence. *)
Lemma urgent_clip_is_omitted :
  ~ (forall (h : Heap) (pl : Playlist) (c : loc),
        In c (clips_of pl) -> recognized (priority (h c)) = false ->
        In c (filler_of h (clips_of pl))
        /\ In c (getOrderedClips h (Some pl))).
Proof.
  intros H.
  destruct (H (snd (parsePlaylist urgent_only emptyHeap))
              (fst (parsePlaylist urgent_only emptyHeap)) 0%nat)
    as [_ F].
  - simpl. now left.
  - reflexivity.
  - vm_compute in F. exact F.
Qed.

(** C1, amended: a clip whose priority is none of the four recognized
    values is placed in no bucket at all, filler included, and is left out
    of the baseline sequence; the playlist is not rejected, its other
    clips are ordered exactly as if the clip were not there. *)
Theorem unrecognized_priority_in_no_bucket :
  forall (h : Heap) (pl : Playlist) (c : loc),
    In c (clips_of pl) ->
    recognized (priority (h c)) = false ->
    ~ In c (pinned_of h (clips_of pl))
    /\ ~ In c (breaking_of h (clips_of pl))
    /\ ~ In c (normal_of h (clips_of pl))
    /\ ~ In c (filler_of h (clips_of pl))
    /\ ~ In c (getOrderedClips h (Some pl))
    /\ getOrderedClips h (Some pl) = getOrderedClips h (Some (without c pl)).
Proof.
  intros h pl c Hin Hun.
  assert (T : forall q, recognized q = true -> has_priority h q c = false)
    by (intros q Hq; now apply unrecognized_has_no_tier).
  unfold pinned_of, breaking_of, normal_of, filler_of.
  rewrite !sort_In, !filter_In.
  repeat split; try (intros [_ F]; rewrite T in F by reflexivity; discriminate).
  - rewrite In_getOrderedClips. intros [_ F]. congruence.
  - rewrite !getOrderedClips_tiers.
    assert (W : clips_of (without c pl)
                = filter (fun x => negb (Nat.eqb x c)) (clips_of pl))
      by (unfold without, clips_of; simpl; now destruct (clips pl)).
    rewrite W. unfold pinned_of, breaking_of, normal_of, filler_of.
    now rewrite !filter_without by (apply T; reflexivity).
Qed.

(* ================================================================== *)
(** ** C2: the baseline order                                         *)
(* ================================================================== *)

(** C2, amended: for a playlist whose breaking and normal clips all carry
    a valid addedAt, the ordering policy returns the pinned clips by
    ascending position, then the breaking clips by descending addedAt, then the
    normal clips by ascending addedAt, then the filler clips as they stand
    in the playlist; a rearranged playlist that keeps every class of tied
    clips in its order yields the same sequence; and the scenario playlist
    [a, b, c, d] orders to [b, a, d, c] whenever T0 < T1. *)
Theorem getOrderedClips_tiered_order :
  forall (h : Heap) (pl : Playlist) (T0 T1 : Z),
    dated h (clips_of pl) = true ->
    T0 < T1 ->
    let arr := clips_of pl in
    getOrderedClips h (Some pl)
    = pinned_of h arr ++ breaking_of h arr ++ normal_of h arr
        ++ filler_of h arr
    /\ Permutation (pinned_of h arr) (filter (has_priority h "pinned") arr)
    /\ StronglySorted
         (fun a b => position_or_0 (h a) <= position_or_0 (h b))
         (pinned_of h arr)
    /\ Permutation (breaking_of h arr)
                   (filter (has_priority h "breaking") arr)
    /\ StronglySorted (fun a b => time_of (h b) <= time_of (h a))
                      (breaking_of h arr)
    /\ Permutation (normal_of h arr) (filter (has_priority h "normal") arr)
    /\ StronglySorted (fun a b => time_of (h a) <= time_of (h b))
                      (normal_of h arr)
    /\ filler_of h arr = filter (has_priority h "filler") arr
    /\ (forall pl2 : Playlist,
           Permutation arr (clips_of pl2) ->
           (forall c, filter (tied h c) arr
                      = filter (tied h c) (clips_of pl2)) ->
           getOrderedClips h (Some pl2) = getOrderedClips h (Some pl))
    /\ (let (pl0, h0) := parsePlaylist (ordering_scenario T0 T1) emptyHeap in
        ids h0 (getOrderedClips h0 (Some pl0))
        = ["b"; "a"; "d"; "c"]%string).
Proof.
  intros h pl T0 T1 D HT arr.
  split; [apply getOrderedClips_tiers|].
  split; [apply sort_perm|].
  split; [apply (sort_sorted _ (fun c => position_or_0 (h c)));
          apply by_position_keyed|].
  split; [apply sort_perm|].
  split.
  { pose proof (sort_sorted _ _ _ (newest_first_keyed h arr D)) as S.
    eapply StronglySorted_ind
      with (P := StronglySorted (fun a b => time_of (h b) <= time_of (h a)));
      [constructor| |exact S].
    intros a l _ IH F. constructor; [exact IH|].
    eapply Forall_impl; [|exact F]. unfold key_le. intros; lia. }
  split; [apply sort_perm|].
  split; [apply (sort_sorted _ _ _ (oldest_first_keyed h arr D))|].
  split; [reflexivity|].
  split.
  - intros pl2 P F. rewrite !getOrderedClips_tiers. fold arr.
    pose proof (dated_perm h _ _ P D) as D2.
    assert (F' : forall c, filter (tied h c) (clips_of pl2)
                           = filter (tied h c) arr)
      by (intros; symmetry; apply F).
    unfold pinned_of, breaking_of, normal_of.
    rewrite (tier_invariant h "pinned" (on_heap h by_position)
               (fun c => position_or_0 (h c)) (clips_of pl2) arr);
      try apply by_position_keyed; [|apply tied_pinned|exact F'].
    rewrite (tier_invariant h "breaking" (on_heap h newest_first)
               (fun c => - time_of (h c)) (clips_of pl2) arr);
      try (now apply newest_first_keyed); [|apply tied_breaking|exact F'].
    rewrite (tier_invariant h "normal" (on_heap h oldest_first)
               (fun c => time_of (h c)) (clips_of pl2) arr);
      try (now apply oldest_first_keyed); [|apply tied_normal|exact F'].
    now rewrite (filler_invariant h (clips_of pl2) arr).
  - cbv -[Z.sub Z.leb].
    replace (T1 - T0 <=? 0) with false by (symmetry; apply Z.leb_gt; lia).
    reflexivity.
Qed.

(* ================================================================== *)
(** ** Facts about the engine's building blocks                       *)
(* ================================================================== *)

Lemma loadPlaylist_fails (f : File (option PlaylistJson)) (m : Machine) :
  load_fails f = true -> loadPlaylist f m = Ok (None, m).
Proof.
  destruct f as [| |[j|]]; simpl; intros H; try discriminate; reflexivity.
Qed.

Lemma loadPlaylist_parsed (j : PlaylistJson) (m : Machine) :
  loadPlaylist (Parsed (Some j)) m
  = Ok (Some (fst (parsePlaylist j (heap m))),
        mkMachine (engineState m) (snd (parsePlaylist j (heap m))) (trace m)).
Proof.
  simpl. now destruct (parsePlaylist j (heap m)).
Qed.

Section EngineFacts.
Variable queueDir : string.
Variable join : string -> string -> string.

Lemma deliver_spec (w : World) (ordered : list loc) (i : nat) (c : loc)
      (m : Machine) :
  deliver queueDir join w ordered i c m
  = Ok (tt,
        mkMachine
          (after_delivery w (join queueDir (path (heap m c))) (heap m c) i
                          (engineState m))
          (heap m)
          (trace m ++ delivery_trace w (join queueDir (path (heap m c)))
                                     (heap m c) i (List.length ordered)
                                     (engineState m))).
Proof.
  unfold deliver, after_delivery, delivery_trace, delivery_event, outcome,
    playClip, playTransition, saveState, bind, getHeap, getState, emit,
    modifyState, ret.
  simpl.
  destruct (existsSync w (join queueDir (path (heap m c)))); simpl.
  - destruct (ffmpeg w (join queueDir (path (heap m c)))) as [code|]; simpl;
      [destruct (code_nonzero code)|]; simpl;
      rewrite <- !app_assoc; reflexivity.
  - rewrite <- !app_assoc. reflexivity.
Qed.

(** The pending breaking clips of an ordered playlist are those of its
    breaking tier. *)
Lemma pending_of_ordered (h : Heap) (pl : Playlist) :
  filter (pending_breaking h) (getOrderedClips h (Some pl))
  = filter (pending_breaking h) (breaking_of h (clips_of pl)).
Proof.
  rewrite getOrderedClips_tiers, !filter_app.
  assert (P : forall p a, String.eqb p "breaking" = false ->
                has_priority h p a = true -> pending_breaking h a = false).
  { intros p a Hp Ha. unfold pending_breaking, has_priority in *.
    apply String.eqb_eq in Ha. now rewrite Ha, Hp. }
  assert (N : forall p l, String.eqb p "breaking" = false ->
                filter (pending_breaking h) (filter (has_priority h p) l) = []).
  { intros p l Hp. apply filter_none. intros a Ha.
    apply filter_In in Ha. destruct Ha as [_ Ha]. now apply (P p). }
  assert (S : forall cmp p l, String.eqb p "breaking" = false ->
                filter (pending_breaking h)
                       (sort cmp (filter (has_priority h p) l)) = []).
  { intros cmp p l Hp. apply filter_none. intros a Ha.
    apply sort_In, filter_In in Ha. destruct Ha as [_ Ha]. now apply (P p). }
  unfold pinned_of, normal_of, filler_of.
  rewrite S, S, N by reflexivity. now rewrite app_nil_r.
Qed.
End EngineFacts.

(* ================================================================== *)
(** ** From objects to their contents                                 *)
(* ================================================================== *)

Lemma map_filter_comm {A B : Type} (f : B -> A) (p : A -> bool) (l : list B) :
  map f (filter (fun b => p (f b)) l) = filter p (map f l).
Proof.
  induction l as [|x l IH]; simpl; [reflexivity|].
  destruct (p (f x)); simpl; now rewrite IH.
Qed.

Lemma map_insert_comm {A B : Type} (f : B -> A) (cmp : A -> A -> number)
      (x : B) (l : list B) :
  map f (insert (fun a b => cmp (f a) (f b)) x l) = insert cmp (f x) (map f l).
Proof.
  induction l as [|y l IH]; simpl; [reflexivity|].
  unfold SortCompare.
  destruct (match cmp (f x) (f y) with Num v => v | NaN => 0 end <=? 0);
    simpl; [reflexivity|now rewrite IH].
Qed.

Lemma map_sort_comm {A B : Type} (f : B -> A) (cmp : A -> A -> number)
      (l : list B) :
  map f (sort (fun a b => cmp (f a) (f b)) l) = sort cmp (map f l).
Proof.
  induction l as [|x l IH]; simpl; [reflexivity|].
  now rewrite map_insert_comm, IH.
Qed.

Lemma StronglySorted_filter {A : Type} (R : A -> A -> Prop) (p : A -> bool)
      (l : list A) :
  StronglySorted R l -> StronglySorted R (filter p l).
Proof.
  induction 1 as [|a l S IH F]; simpl; [constructor|].
  destruct (p a); [|exact IH].
  constructor; [exact IH|].
  rewrite Forall_forall in *. intros x Hx. apply filter_In in Hx. now apply F.
Qed.

(** The contents of the pending breaking clips the step finds in a freshly
    parsed document, in the order in which it finds them. *)
Lemma pending_of_fresh (j : PlaylistJson) (cs : list Clip) (h : Heap) :
  json_clips j = Some cs ->
  map (cell (snd (parsePlaylist j h)))
      (filter (pending_breaking (snd (parsePlaylist j h)))
              (getOrderedClips (snd (parsePlaylist j h))
                               (Some (fst (parsePlaylist j h)))))
  = filter pending
           (sort newest_first
                 (filter (fun c => String.eqb (priority c) "breaking") cs)).
Proof.
  intros J.
  pose proof (parsePlaylist_spec j h) as (_ & _ & C & _).
  cbv zeta in C. rewrite J in C.
  set (h1 := snd (parsePlaylist j h)) in *.
  set (pl := fst (parsePlaylist j h)) in *.
  assert (L : map h1 (clips_of pl) = cs).
  { unfold clips_of. destruct (clips pl); simpl in *; congruence. }
  rewrite pending_of_ordered.
  change (pending_breaking h1) with (fun c => pending (h1 c)).
  rewrite map_filter_comm. unfold breaking_of, on_heap.
  rewrite map_sort_comm.
  change (has_priority h1 "breaking")
    with (fun c => (fun x => String.eqb (priority x) "breaking") (h1 c)).
  now rewrite map_filter_comm, L.
Qed.

Lemma newest_first_keyed_values (cs : list Clip) :
  (forall c, In c cs -> priority c = "breaking"%string -> addedAt c <> None) ->
  keyed_on newest_first (fun c => - time_of c)
           (filter (fun c => String.eqb (priority c) "breaking") cs).
Proof.
  intros D a b Ha Hb. apply filter_In in Ha, Hb.
  destruct Ha as [Ha Pa], Hb as [Hb Pb]. apply String.eqb_eq in Pa, Pb.
  pose proof (D a Ha Pa) as Da. pose proof (D b Hb Pb) as Db.
  unfold SortCompare, newest_first, time_of.
  destruct (addedAt a) as [ta|], (addedAt b) as [tb|]; try congruence.
  simpl.
  destruct (tb - ta <=? 0) eqn:E;
    symmetry; [apply Z.leb_le; apply Z.leb_le in E
              |apply Z.leb_gt; apply Z.leb_gt in E]; lia.
Qed.

(** [top_pending] is a pending breaking clip of the document, and, when the
    breaking clips are dated, one with the latest date. *)
Lemma top_pending_spec (cs : list Clip) (c : Clip) :
  top_pending cs = Some c ->
  In c cs /\ priority c = "breaking"%string /\ _played c = false
  /\ ((forall x, In x cs -> priority x = "breaking"%string ->
                 addedAt x <> None) ->
      forall x, In x cs -> pending x = true -> time_of x <= time_of c).
Proof.
  unfold top_pending. intros T.
  set (B := filter (fun c => String.eqb (priority c) "breaking") cs) in *.
  destruct (filter pending (sort newest_first B)) as [|c0 rest] eqn:E;
    [discriminate|].
  simpl in T. injection T as ->.
  assert (I : In c (filter pending (sort newest_first B)))
    by (rewrite E; now left).
  apply filter_In in I. destruct I as [I P].
  apply sort_In in I. unfold B in I. apply filter_In in I.
  destruct I as [I Pb]. apply String.eqb_eq in Pb.
  unfold pending in P. apply andb_true_iff in P. destruct P as [_ P].
  apply negb_true_iff in P.
  repeat split; auto.
  intros D x Hx Px.
  pose proof (sort_sorted _ _ _ (newest_first_keyed_values cs D)) as S.
  apply (StronglySorted_filter _ pending) in S. fold B in S.
  rewrite E in S. inversion S as [|? ? _ F]; subst.
  assert (Ix : In x (c :: rest)).
  { rewrite <- E. apply filter_In. split; [|exact Px].
    apply sort_In. unfold B. apply filter_In. split; [exact Hx|].
    unfold pending in Px. now apply andb_true_iff in Px. }
  destruct Ix as [<-|Ix]; [lia|].
  rewrite Forall_forall in F. specialize (F x Ix). unfold key_le in F. lia.
Qed.

Lemma top_pending_exists (cs : list Clip) :
  (exists c, In c cs /\ pending c = true) ->
  exists c, top_pending cs = Some c.
Proof.
  intros [c [I P]]. unfold top_pending.
  destruct (filter pending _) as [|c0 rest] eqn:E; [|now exists c0].
  exfalso.
  assert (In c []) as [].
  rewrite <- E. apply filter_In. split; [|exact P].
  apply sort_In, filter_In. split; [exact I|].
  unfold pending in P. now apply andb_true_iff in P.
Qed.

(** The candidates of a step are the pending breaking clips of the
    playlist, whatever their order. *)
Lemma candidate_iff (h : Heap) (pl : Playlist) (b : loc) :
  In b (filter (pending_breaking h) (getOrderedClips h (Some pl)))
  <-> In b (clips_of pl) /\ pending_breaking h b = true.
Proof.
  rewrite filter_In, In_getOrderedClips. split; [tauto|].
  intros [I P]. repeat split; auto.
  unfold pending_breaking, has_priority in P.
  apply andb_true_iff in P. destruct P as [P _]. apply String.eqb_eq in P.
  now rewrite P.
Qed.

Lemma has_pending_candidates (h : Heap) (pl : Playlist) :
  has_pending h (clips_of pl)
  = match filter (pending_breaking h) (getOrderedClips h (Some pl)) with
    | [] => false
    | _ :: _ => true
    end.
Proof.
  unfold has_pending.
  destruct (filter (pending_breaking h) (getOrderedClips h (Some pl)))
    as [|b rest] eqn:E.
  - destruct (existsb _ _) eqn:X; [|reflexivity].
    apply existsb_exists in X. destruct X as (x & I & P).
    assert (In x []) as []. rewrite <- E. apply candidate_iff. auto.
  - apply existsb_exists. exists b.
    apply candidate_iff. rewrite E. now left.
Qed.

(* ================================================================== *)
(** ** Facts about one play step                                      *)
(* ================================================================== *)

Lemma loadPlaylist_total (f : File (option PlaylistJson)) (m : Machine) :
  exists fp m1,
    loadPlaylist f m = Ok (fp, m1)
    /\ engineState m1 = engineState m
    /\ trace m1 = trace m
    /\ (forall l, (l < next (heap m))%nat -> heap m1 l = heap m l).
Proof.
  destruct f as [| |[j|]];
    try (exists None, m; repeat split; reflexivity).
  eexists _, _. split; [apply loadPlaylist_parsed|].
  simpl. repeat split; try reflexivity.
  apply (parsePlaylist_spec j (heap m)).
Qed.

(** The machine after the mark went onto [b]. *)
Lemma selectClip_after_load (w : World) (playlist : Playlist)
      (ordered : list loc) (i : nat) (m : Machine)
      (fp : option Playlist) (m1 : Machine) :
  loadPlaylist (playlistFile w) m = Ok (fp, m1) ->
  selectClip w playlist ordered i m
  = match filter (pending_breaking (heap m1))
                 (getOrderedClips (heap m1) (Some (or_else fp playlist))) with
    | b :: _ =>
        if (0 <? i)%nat then
          Ok (b, mkMachine (engineState m1) (update b set_played (heap m1))
                           (trace m1 ++ [Breaking (set_played (heap m1 b))]))
        else at_index ordered i m1
    | [] => at_index ordered i m1
    end.
Proof.
  intros L. unfold selectClip, bind at 1. rewrite L.
  unfold bind at 1, getHeap.
  destruct (filter _ _) as [|b rest]; simpl; [reflexivity|].
  destruct (0 <? i)%nat; simpl; [|reflexivity].
  unfold bind, at_index, modifyHeap, getHeap, emit, ret. simpl.
  now rewrite Nat.eqb_refl.
Qed.

Lemma selectClip_total (w : World) (playlist : Playlist) (ordered : list loc)
      (i : nat) (m : Machine) :
  (i < List.length ordered)%nat ->
  exists c m1,
    selectClip w playlist ordered i m = Ok (c, m1)
    /\ engineState m1 = engineState m
    /\ (trace m1 = trace m \/ exists x, trace m1 = trace m ++ [Breaking x]).
Proof.
  intros Hi.
  destruct (loadPlaylist_total (playlistFile w) m) as (fp & m1 & L & S & T & _).
  rewrite (selectClip_after_load _ _ _ _ _ _ _ L).
  destruct (nth_error ordered i) as [base|] eqn:N;
    [|apply nth_error_None in N; lia].
  assert (A : at_index ordered i m1 = Ok (base, m1))
    by (unfold at_index; now rewrite N).
  destruct (filter _ _) as [|b rest]; [exists base, m1; auto|].
  destruct (0 <? i)%nat; [|exists base, m1; auto].
  eexists _, _. split; [reflexivity|]. cbn [engineState trace].
  split; [exact S|]. right. rewrite T. eauto.
Qed.

Lemma playlist_writes_app (t u : list Event) :
  playlist_writes (t ++ u) = playlist_writes t ++ playlist_writes u.
Proof.
  induction t as [|e t IH]; simpl; [reflexivity|].
  destruct e; simpl; now rewrite IH.
Qed.

Lemma waits_app (t u : list Event) : waits (t ++ u) = waits t ++ waits u.
Proof.
  induction t as [|e t IH]; simpl; [reflexivity|].
  destruct e; simpl; now rewrite IH.
Qed.

Lemma delivery_trace_quiet (w : World) (p : string) (c : Clip) (i n : nat)
      (s : EngineState) :
  playlist_writes (delivery_trace w p c i n s) = []
  /\ waits (delivery_trace w p c i n s) = [].
Proof.
  unfold delivery_trace, delivery_event.
  destruct (existsSync w p); split; reflexivity.
Qed.

(** The prune of a store that holds a playlist with clips. *)
Lemma prune_parsed (w : World) (m : Machine) (j : PlaylistJson)
      (cs : list Clip) :
  playlistFile w = Parsed (Some j) ->
  json_clips j = Some cs ->
  prune w m
  = Ok (tt,
        mkMachine
          (engineState m) (snd (parsePlaylist j (heap m)))
          (trace m ++
             [WritePlaylist
                (mkPlaylistJson
                   (Some (filter
                            (fun c => negb (String.eqb (priority c) "breaking"))
                            cs))
                   (json_others j))])).
Proof.
  intros F J. unfold prune, bind. rewrite F, loadPlaylist_parsed.
  pose proof (parsePlaylist_spec j (heap m)) as (_ & O & C & _).
  cbv zeta in O, C. rewrite J in C.
  set (h1 := snd (parsePlaylist j (heap m))) in *.
  set (pl := fst (parsePlaylist j (heap m))) in *.
  destruct (clips pl) as [arr|] eqn:A; [|discriminate].
  simpl in C. injection C as C.
  unfold getHeap, emit, stringifyPlaylist. cbn [heap engineState trace].
  cbn [clips others option_map]. rewrite O.
  change (fun c => negb (has_priority h1 "breaking" c))
    with (fun c => (fun x => negb (String.eqb (priority x) "breaking"))
                     (h1 c)).
  now rewrite map_filter_comm, C.
Qed.

Lemma prune_nothing (w : World) (m : Machine) :
  load_fails (playlistFile w) = true -> prune w m = Ok (tt, m).
Proof.
  intros F. unfold prune, bind. now rewrite loadPlaylist_fails.
Qed.

(** Choosing the clip leaves the engine state alone. *)
Lemma selectClip_state (w : World) (playlist : Playlist) (ordered : list loc)
      (i : nat) (m : Machine) (c : loc) (m1 : Machine) :
  selectClip w playlist ordered i m = Ok (c, m1) ->
  engineState m1 = engineState m.
Proof.
  destruct (loadPlaylist_total (playlistFile w) m) as (fp & m0 & L & S & _).
  rewrite (selectClip_after_load _ _ _ _ _ _ _ L).
  assert (A : at_index ordered i m0 = Ok (c, m1) ->
              engineState m1 = engineState m).
  { unfold at_index. destruct (nth_error ordered i); [|discriminate].
    unfold ret. intros E. injection E as <- <-. exact S. }
  destruct (filter _ _) as [|b rest]; [exact A|].
  destruct (0 <? i)%nat; [|exact A].
  intros E. injection E as <- <-. exact S.
Qed.

Section StepFacts.
Variable queueDir : string.
Variable join : string -> string -> string.

(** A step whose reload finds the pending breaking clip [c] on top, past the
    opening slot: the mark goes onto the fresh copy, [c] is delivered, and no
    object that existed before the step changes. *)
Lemma playStep_breaking (w : World) (playlist : Playlist) (ordered : list loc)
      (i : nat) (m : Machine) (j : PlaylistJson) (cs : list Clip) (c : Clip) :
  playlistFile w = Parsed (Some j) ->
  json_clips j = Some cs ->
  top_pending cs = Some c ->
  (0 < i)%nat ->
  exists m',
    playStep queueDir join w playlist ordered i m = Ok (tt, m')
    /\ engineState m'
       = after_delivery w (join queueDir (path c)) (set_played c) i
                        (engineState m)
    /\ trace m'
       = trace m ++ Breaking (set_played c)
           :: delivery_trace w (join queueDir (path c)) (set_played c) i
                             (List.length ordered) (engineState m)
    /\ (forall l, (l < next (heap m))%nat -> heap m' l = heap m l).
Proof.
  intros F J T Hi.
  unfold playStep, bind.
  rewrite (selectClip_after_load w playlist ordered i m _ _
             (eq_trans (f_equal (fun f => loadPlaylist f m) F)
                       (loadPlaylist_parsed j m))).
  cbn [heap engineState trace or_else].
  pose proof (pending_of_fresh j cs (heap m) J) as P.
  pose proof (parsePlaylist_spec j (heap m)) as (_ & _ & _ & Fresh & _ & Old).
  cbv zeta in Fresh, Old.
  set (h1 := snd (parsePlaylist j (heap m))) in *.
  set (pl := fst (parsePlaylist j (heap m))) in *.
  unfold top_pending in T. rewrite <- P in T.
  destruct (filter (pending_breaking h1) (getOrderedClips h1 (Some pl)))
    as [|b rest] eqn:E; [discriminate|].
  simpl in T. injection T as T.
  assert (Hb : (next (heap m) <= b)%nat).
  { apply Fresh.
    assert (I : In b (filter (pending_breaking h1)
                             (getOrderedClips h1 (Some pl))))
      by (rewrite E; now left).
    apply filter_In in I. destruct I as [I _].
    now apply In_getOrderedClips in I. }
  apply Nat.ltb_lt in Hi. rewrite Hi.
  rewrite deliver_spec. cbn [heap engineState trace update cell].
  rewrite Nat.eqb_refl, T.
  eexists. split; [reflexivity|]. cbn [heap engineState trace cell].
  repeat split.
  - now rewrite <- app_assoc.
  - intros l Hl. unfold update. cbn [cell].
    destruct (Nat.eqb l b) eqn:El.
    + apply Nat.eqb_eq in El. lia.
    + now apply Old.
Qed.


(** Inside the pass every step returns: it plays one clip, writes no
    playlist, does not wait and leaves the loop flag alone. *)
Lemma playStep_total (w : World) (playlist : Playlist) (ordered : list loc)
      (i : nat) (m : Machine) :
  (i < List.length ordered)%nat ->
  exists m',
    playStep queueDir join w playlist ordered i m = Ok (tt, m')
    /\ playlist_writes (trace m') = playlist_writes (trace m)
    /\ waits (trace m') = waits (trace m)
    /\ running (engineState m') = running (engineState m)
    /\ loopCount (engineState m') = loopCount (engineState m)
    /\ clipsPlayed (engineState m') = clipsPlayed (engineState m) + 1.
Proof.
  intros Hi.
  destruct (selectClip_total w playlist ordered i m Hi)
    as (c & m1 & S & E & T).
  unfold playStep, bind. rewrite S, deliver_spec.
  eexists. split; [reflexivity|]. cbn [trace engineState].
  rewrite playlist_writes_app, waits_app.
  destruct (delivery_trace_quiet w (join queueDir (path (heap m1 c)))
              (heap m1 c) i (List.length ordered) (engineState m1))
    as [-> ->].
  rewrite !app_nil_r, E.
  repeat split.
  - destruct T as [->|[x ->]]; [reflexivity|].
    rewrite playlist_writes_app. simpl. apply app_nil_r.
  - destruct T as [->|[x ->]]; [reflexivity|].
    rewrite waits_app. simpl. apply app_nil_r.
  - unfold after_delivery. now destruct (code_nonzero _).
  - unfold after_delivery. now destruct (code_nonzero _).
  - unfold after_delivery. now destruct (code_nonzero _).
Qed.

Lemma forLoop_total (ws : nat -> World) (playlist : Playlist)
      (ordered : list loc) (n i : nat) (m : Machine) :
  (i + n <= List.length ordered)%nat ->
  exists m',
    forLoop queueDir join ws playlist ordered n i m = Ok (tt, m')
    /\ playlist_writes (trace m') = playlist_writes (trace m)
    /\ waits (trace m') = waits (trace m)
    /\ running (engineState m') = running (engineState m)
    /\ loopCount (engineState m') = loopCount (engineState m)
    /\ clipsPlayed (engineState m') = clipsPlayed (engineState m) + Z.of_nat n.
Proof.
  revert i m. induction n as [|n IH]; intros i m Hn.
  - exists m. simpl. repeat split; auto. lia.
  - destruct (playStep_total (ws i) playlist ordered i m)
      as (m1 & P & W1 & T1 & R1 & L1 & C1); [lia|].
    destruct (IH (S i) m1) as (m2 & F & W2 & T2 & R2 & L2 & C2); [lia|].
    exists m2. cbn [forLoop]. unfold bind. rewrite P, F.
    repeat split; try congruence. lia.
Qed.
End StepFacts.

Section SchedulerClaims.
Variable queueDir : string.
Variable join : string -> string -> string.

(* ================================================================== *)
(** ** C3: a breaking clip preempts the base plan                     *)
(* ================================================================== *)


(* ================================================================== *)
(** ** C4: a breaking clip is picked again on the next step           *)
(* ================================================================== *)

(** C4: as long as the store holds a pending breaking clip, every step past
    the opening slot picks the same breaking clip, whatever the engine did
    before: the mark is set on the copy parsed for the step, no object that
    existed before the step changes, so the next step picks the clip again;
    the prune at the end of the pass is what removes it from the store. *)
Theorem breaking_clip_is_selected_again :
  forall (j : PlaylistJson) (cs : list Clip),
    json_clips j = Some cs ->
    (exists c, In c cs /\ pending c = true) ->
    exists c,
      In c cs /\ priority c = "breaking"%string /\ _played c = false
      /\ (forall (w w2 : World) (playlist : Playlist) (ordered : list loc)
                 (i : nat) (m : Machine),
             playlistFile w = Parsed (Some j) ->
             playlistFile w2 = Parsed (Some j) ->
             (0 < i)%nat ->
             exists m' m'',
               playStep queueDir join w playlist ordered i m = Ok (tt, m')
               /\ trace m'
                  = trace m ++ Breaking (set_played c)
                      :: delivery_trace w (join queueDir (path c))
                                        (set_played c) i (List.length ordered)
                                        (engineState m)
               /\ (forall l, (l < next (heap m))%nat -> heap m' l = heap m l)
               /\ playStep queueDir join w2 playlist ordered (S i) m'
                  = Ok (tt, m'')
               /\ trace m''
                  = trace m' ++ Breaking (set_played c)
                      :: delivery_trace w2 (join queueDir (path c))
                                        (set_played c) (S i)
                                        (List.length ordered)
                                        (engineState m'))
      /\ (forall (w : World) (m : Machine),
             playlistFile w = Parsed (Some j) ->
             exists m' doc kept,
               prune w m = Ok (tt, m')
               /\ trace m' = trace m ++ [WritePlaylist doc]
               /\ json_clips doc = Some kept
               /\ ~ In c kept).
Proof.
  intros j cs J E.
  destruct (top_pending_exists cs E) as [c T].
  destruct (top_pending_spec cs c T) as (I & P & U & _).
  exists c. repeat split; auto.
  - intros w w2 playlist ordered i m F F2 Hi.
    destruct (playStep_breaking queueDir join w playlist ordered i m j cs c
                                F J T Hi) as (m' & R & _ & Tr & Old).
    destruct (playStep_breaking queueDir join w2 playlist ordered (S i) m'
                                j cs c F2 J T (Nat.lt_0_succ i))
      as (m'' & R2 & _ & Tr2 & _).
    exists m', m''. auto.
  - intros w m F. unfold prune, bind. rewrite F, loadPlaylist_parsed.
    pose proof (parsePlaylist_spec j (heap m)) as (_ & _ & C & _).
    cbv zeta in C. rewrite J in C.
    set (h1 := snd (parsePlaylist j (heap m))) in *.
    set (pl := fst (parsePlaylist j (heap m))) in *.
    destruct (clips pl) as [arr|] eqn:A; [|discriminate].
    unfold getHeap, emit. cbn [heap engineState trace].
    eexists _, _, _. split; [reflexivity|].
    split; [reflexivity|]. split; [reflexivity|].
    rewrite in_map_iff. intros (l & Hl & Il).
    apply filter_In in Il. destruct Il as [_ Il].
    unfold has_priority in Il. rewrite Hl, P in Il. discriminate.
Qed.

(* ================================================================== *)
(** ** C5: the prune at pass completion                               *)
(* ================================================================== *)

(** C5: when the store holds a playlist at pass completion, the pass ends
    by writing that playlist back with exactly its breaking clips removed:
    the written document has no breaking clip, whatever was played, and
    its clips are the other clips of the store, unchanged and in their
    order. *)
Theorem prune_removes_breaking_clips :
  forall (r : Round) (playlist : Playlist) (ordered : list loc) (m : Machine)
         (j : PlaylistJson) (cs : list Clip),
    playlistFile (closing r) = Parsed (Some j) ->
    json_clips j = Some cs ->
    let kept :=
      filter (fun c => negb (String.eqb (priority c) "breaking")) cs in
    exists m1 m',
      forLoop queueDir join (at_step r) playlist ordered
              (List.length ordered) 0 m = Ok (tt, m1)
      /\ runPass queueDir join r playlist ordered m = Ok (tt, m')
      /\ trace m'
         = trace m1
             ++ [WriteState (stringifyState (incr_loopCount (engineState m1)));
                 WritePlaylist (mkPlaylistJson (Some kept) (json_others j))]
      /\ (forall c, In c kept -> priority c <> "breaking"%string)
      /\ (forall c, In c kept <->
                    In c cs /\ priority c <> "breaking"%string).
Proof.
  intros r playlist ordered m j cs F J kept.
  destruct (forLoop_total queueDir join (at_step r) playlist ordered
              (List.length ordered) 0 m) as (m1 & L & _); [lia|].
  assert (K : forall c, In c kept <->
                        In c cs /\ priority c <> "breaking"%string).
  { intros c. unfold kept. rewrite filter_In, negb_true_iff.
    rewrite <- String.eqb_neq. tauto. }
  exists m1. eexists. split; [exact L|].
  split; [|split; [|split; [|exact K]]].
  - unfold runPass, bind at 1. rewrite L.
    unfold bind, modifyState, saveState, getState, emit.
    cbn [engineState heap trace]. unfold bind.
    cbn [engineState heap trace].
    rewrite (prune_parsed (closing r) _ j cs F J). reflexivity.
  - cbn [trace]. now rewrite <- app_assoc.
  - intros c Hc. now apply K in Hc.
Qed.

(* ================================================================== *)
(** ** C10: a prune that finds no playlist                            *)
(* ================================================================== *)

(** C10: when the store is missing or does not parse at the prune, the
    prune changes nothing and writes nothing; the turn of the loop returns
    without having written the playlist file, and the loop goes on to its
    next turn. *)
Theorem failed_prune_writes_nothing :
  forall (r : Round) (rest : list Round) (m : Machine),
    load_fails (playlistFile (closing r)) = true ->
    running (engineState m) = true ->
    (forall m0, prune (closing r) m0 = Ok (tt, m0))
    /\ exists m',
         turn queueDir join r m = Ok (tt, m')
         /\ playlist_writes (trace m') = playlist_writes (trace m)
         /\ whileRunning queueDir join (r :: rest) m
            = whileRunning queueDir join rest m'.
Proof.
  intros r rest m F R.
  split; [intros m0; now apply prune_nothing|].
  assert (T : exists m', turn queueDir join r m = Ok (tt, m')
                         /\ playlist_writes (trace m')
                            = playlist_writes (trace m)).
  { unfold turn, bind at 1.
    destruct (loadPlaylist_total (playlistFile (opening r)) m)
      as (fp & m1 & L & _ & T1 & _).
    rewrite L.
    assert (W : exists m', emit (Wait 10000) m1 = Ok (tt, m')
                           /\ playlist_writes (trace m')
                              = playlist_writes (trace m)).
    { eexists. split; [reflexivity|]. cbn [trace].
      rewrite playlist_writes_app, T1. apply app_nil_r. }
    destruct fp as [pl|]; [|exact W].
    unfold bind at 1, getHeap.
    destruct (List.length (getOrderedClips (heap m1) (Some pl)) =? 0)%nat;
      [exact W|].
    destruct (forLoop_total queueDir join (at_step r) pl
                (getOrderedClips (heap m1) (Some pl))
                (List.length (getOrderedClips (heap m1) (Some pl))) 0 m1)
      as (m2 & L2 & W2 & _); [lia|].
    unfold runPass, bind at 1. rewrite L2.
    unfold bind, modifyState, saveState, getState, emit.
    cbn [engineState heap trace]. unfold bind.
    cbn [engineState heap trace]. rewrite prune_nothing by exact F.
    eexists. split; [reflexivity|]. cbn [trace].
    rewrite playlist_writes_app, W2, T1. apply app_nil_r. }
  destruct T as (m' & T & W). exists m'. repeat split; auto.
  cbn [whileRunning]. unfold bind at 1, getState. rewrite R.
  unfold bind. now rewrite T.
Qed.

(* ================================================================== *)
(** ** C6: a clip whose file is missing                               *)
(* ================================================================== *)

(** C6: when the file of the clip chosen for a step does not exist, the
    step returns normally, [errors] and [clipsPlayed] have each grown by
    one, ffmpeg was not started, and the loop goes on with the next
    step. *)
Theorem missing_clip_file_is_skipped :
  forall (ws : nat -> World) (playlist : Playlist) (ordered : list loc)
         (i n : nat) (m : Machine) (c : loc) (m1 : Machine),
    selectClip (ws i) playlist ordered i m = Ok (c, m1) ->
    existsSync (ws i) (join queueDir (path (heap m1 c))) = false ->
    exists m',
      playStep queueDir join (ws i) playlist ordered i m = Ok (tt, m')
      /\ errors (engineState m') = errors (engineState m) + 1
      /\ clipsPlayed (engineState m') = clipsPlayed (engineState m) + 1
      /\ trace m'
         = trace m1
             ++ [NowPlaying i (List.length ordered) (heap m1 c);
                 WriteState
                   (stringifyState
                      (set_current (id (heap m1 c)) i (engineState m1)));
                 ClipNotFound (join queueDir (path (heap m1 c)));
                 Transition]
      /\ forLoop queueDir join ws playlist ordered (S n) i m
         = forLoop queueDir join ws playlist ordered n (S i) m'.
Proof.
  intros ws playlist ordered i n m c m1 S E.
  pose proof (selectClip_state _ _ _ _ _ _ _ S) as St.
  eexists. split.
  - unfold playStep, bind. rewrite S. apply deliver_spec.
  - cbn [engineState trace]. unfold after_delivery, outcome, delivery_trace,
      delivery_event. rewrite E.
    split; [simpl; now rewrite St|].
    split; [simpl; now rewrite St|].
    split; [reflexivity|].
    cbn [forLoop]. unfold bind at 1.
    unfold playStep, bind at 1. rewrite S, deliver_spec.
    unfold after_delivery, outcome, delivery_trace, delivery_event.
    rewrite E. reflexivity.
Qed.

(* ================================================================== *)
(** ** C9: a reload that fails in the middle of a pass                *)
(* ================================================================== *)

(** A step whose reload returns nothing, in terms of the candidates the
    step computes from the playlist object of the pass. *)
Lemma playStep_fallback :
  forall (ws : nat -> World) (playlist : Playlist) (ordered : list loc)
         (i n : nat) (m : Machine) (base : loc),
    load_fails (playlistFile (ws i)) = true ->
    nth_error ordered i = Some base ->
    exists m',
      playStep queueDir join (ws i) playlist ordered i m = Ok (tt, m')
      /\ waits (trace m') = waits (trace m)
      /\ match filter (pending_breaking (heap m))
                      (getOrderedClips (heap m) (Some playlist)) with
         | b :: _ =>
             if (0 <? i)%nat then
               In b (clips_of playlist)
               /\ heap m' = update b set_played (heap m)
               /\ trace m'
                  = trace m ++ Breaking (set_played (heap m b))
                      :: delivery_trace
                           (ws i) (join queueDir (path (heap m b)))
                           (set_played (heap m b)) i (List.length ordered)
                           (engineState m)
             else
               heap m' = heap m
               /\ trace m'
                  = trace m
                      ++ delivery_trace
                           (ws i) (join queueDir (path (heap m base)))
                           (heap m base) i (List.length ordered)
                           (engineState m)
         | [] =>
             heap m' = heap m
             /\ trace m'
                = trace m
                    ++ delivery_trace
                         (ws i) (join queueDir (path (heap m base)))
                         (heap m base) i (List.length ordered)
                         (engineState m)
         end
      /\ forLoop queueDir join ws playlist ordered (S n) i m
         = forLoop queueDir join ws playlist ordered n (S i) m'.
Proof.
  intros ws playlist ordered i n m base F N.
  pose proof (loadPlaylist_fails _ m F) as L.
  assert (A : at_index ordered i m = Ok (base, m))
    by (unfold at_index; now rewrite N).
  assert (Q : forall p c k s,
             waits (delivery_trace (ws i) p c i k s) = [])
    by (intros; apply delivery_trace_quiet).
  assert (P : exists m', playStep queueDir join (ws i) playlist ordered i m
                         = Ok (tt, m')
              /\ waits (trace m') = waits (trace m)
              /\ match filter (pending_breaking (heap m))
                              (getOrderedClips (heap m) (Some playlist)) with
                 | b :: _ =>
                     if (0 <? i)%nat then
                       In b (clips_of playlist)
                       /\ heap m' = update b set_played (heap m)
                       /\ trace m'
                          = trace m ++ Breaking (set_played (heap m b))
                              :: delivery_trace
                                   (ws i) (join queueDir (path (heap m b)))
                                   (set_played (heap m b)) i
                                   (List.length ordered) (engineState m)
                     else
                       heap m' = heap m
                       /\ trace m'
                          = trace m
                              ++ delivery_trace
                                   (ws i) (join queueDir (path (heap m base)))
                                   (heap m base) i (List.length ordered)
                                   (engineState m)
                 | [] =>
                     heap m' = heap m
                     /\ trace m'
                        = trace m
                            ++ delivery_trace
                                 (ws i) (join queueDir (path (heap m base)))
                                 (heap m base) i (List.length ordered)
                                 (engineState m)
                 end).
  { unfold playStep, bind.
    rewrite (selectClip_after_load _ _ _ _ _ _ _ L). cbn [or_else].
    destruct (filter (pending_breaking (heap m))
                     (getOrderedClips (heap m) (Some playlist)))
      as [|b rest] eqn:E.
    - rewrite A, deliver_spec. eexists. split; [reflexivity|].
      cbn [trace heap]. rewrite waits_app, Q, app_nil_r. auto.
    - destruct (0 <? i)%nat.
      + rewrite deliver_spec. cbn [heap engineState trace update cell].
        rewrite Nat.eqb_refl. eexists. split; [reflexivity|].
        cbn [trace heap]. rewrite !waits_app, Q. simpl. rewrite !app_nil_r.
        repeat split.
        * assert (I : In b (filter (pending_breaking (heap m))
                                   (getOrderedClips (heap m) (Some playlist))))
            by (rewrite E; now left).
          apply filter_In in I. destruct I as [I _].
          now apply In_getOrderedClips in I.
        * now rewrite <- app_assoc.
      + rewrite A, deliver_spec. eexists. split; [reflexivity|].
        cbn [trace heap]. rewrite waits_app, Q, app_nil_r. auto. }
  destruct P as (m' & S & W & C). exists m'. repeat split; auto.
  cbn [forLoop]. unfold bind at 1. now rewrite S.
Qed.


(* ================================================================== *)
(** ** C7: the engine state across a restart                          *)
(* ================================================================== *)

(** C7: a start that finds a parseable engine-state file lays the
    persisted values over the defaults; [loopCount], [clipsPlayed],
    [errors] and [startedAt] are the persisted ones; a file written by
    [saveState] brings back the whole state it was written from; and the
    loop starts from the merged state. *)
Theorem restart_resumes_persisted_state :
  forall (j : StateJson) (defaults : EngineState) (lc cp er : Z)
         (sa : string),
    j_loopCount j = Some lc ->
    j_clipsPlayed j = Some cp ->
    j_errors j = Some er ->
    j_startedAt j = Some sa ->
    loopCount (loadState (Parsed j) defaults) = lc
    /\ clipsPlayed (loadState (Parsed j) defaults) = cp
    /\ errors (loadState (Parsed j) defaults) = er
    /\ startedAt (loadState (Parsed j) defaults) = sa
    /\ (forall saved : EngineState,
           loadState (Parsed (stringifyState saved)) defaults = saved)
    /\ (forall (rounds : list Round) (m : Machine),
           engineState m = defaults ->
           main queueDir join (Parsed j) rounds m
           = whileRunning queueDir join rounds
               (mkMachine (loadState (Parsed j) defaults) (heap m) (trace m))).
Proof.
  intros j defaults lc cp er sa L C E S.
  repeat split; try (simpl; rewrite ?L, ?C, ?E, ?S; reflexivity).
  - intros saved. now destruct saved.
  - intros rounds m <-. reflexivity.
Qed.

(* ================================================================== *)
(** ** C8: a store with nothing to play                               *)
(* ================================================================== *)

Lemma forallb_false_witness {A : Type} (p : A -> bool) (l : list A) :
  forallb p l = false -> exists a, In a l /\ p a = false.
Proof.
  induction l as [|x l IH]; simpl; [discriminate|].
  destruct (p x) eqn:E; simpl.
  - intros H. destruct (IH H) as (a & I & P). exists a. auto.
  - intros _. exists x. auto.
Qed.

Lemma turn_idle (r : Round) (m : Machine) :
  nothing_to_play (playlistFile (opening r)) = true ->
  exists m',
    turn queueDir join r m = Ok (tt, m')
    /\ engineState m' = engineState m
    /\ trace m' = trace m ++ [Wait 10000].
Proof.
  intros N. unfold turn, bind at 1.
  destruct (playlistFile (opening r)) as [| |[j|]];
    try (eexists; split; [reflexivity|]; split; reflexivity).
  rewrite loadPlaylist_parsed. unfold bind at 1, getHeap.
  cbn [heap engineState trace].
  pose proof (parsePlaylist_spec j (heap m)) as (_ & _ & C & _).
  cbv zeta in C.
  set (h1 := snd (parsePlaylist j (heap m))) in *.
  set (pl := fst (parsePlaylist j (heap m))) in *.
  destruct (getOrderedClips h1 (Some pl)) as [|c rest] eqn:E;
    [eexists; split; [reflexivity|]; split; reflexivity|].
  exfalso.
  assert (I : In c (getOrderedClips h1 (Some pl))) by (rewrite E; now left).
  apply In_getOrderedClips in I. destruct I as [I R].
  simpl in N. rewrite forallb_forall in N.
  assert (In (h1 c) (or_else (json_clips j) [])) as X.
  { rewrite <- C. unfold clips_of in I.
    destruct (clips pl) as [arr|]; simpl in *; [|destruct I].
    now apply in_map. }
  specialize (N _ X). rewrite R in N. discriminate.
Qed.

Lemma turn_busy (r : Round) (m : Machine) :
  nothing_to_play (playlistFile (opening r)) = false ->
  exists pl m2,
    loadPlaylist (playlistFile (opening r)) m = Ok (Some pl, m2)
    /\ getOrderedClips (heap m2) (Some pl) <> []
    /\ turn queueDir join r m
       = runPass queueDir join r pl (getOrderedClips (heap m2) (Some pl)) m2.
Proof.
  intros N. unfold turn, bind at 1.
  destruct (playlistFile (opening r)) as [| |[j|]]; try discriminate.
  rewrite loadPlaylist_parsed. unfold bind at 1, getHeap.
  cbn [heap engineState trace].
  pose proof (parsePlaylist_spec j (heap m)) as (_ & _ & C & _).
  cbv zeta in C.
  set (h1 := snd (parsePlaylist j (heap m))) in *.
  set (pl := fst (parsePlaylist j (heap m))) in *.
  simpl in N. apply forallb_false_witness in N.
  destruct N as (c & I & R). apply negb_false_iff in R.
  assert (exists l, In l (getOrderedClips h1 (Some pl))) as [l Hl].
  { rewrite <- C in I. unfold clips_of.
    destruct (clips pl) as [arr|] eqn:A; simpl in I; [|destruct I].
    apply in_map_iff in I. destruct I as (l & Hl & Il).
    exists l. apply In_getOrderedClips. unfold clips_of. rewrite A.
    split; [exact Il|]. now rewrite Hl. }
  exists pl. eexists. split; [reflexivity|]. cbn [heap].
  destruct (getOrderedClips h1 (Some pl)) as [|x rest]; [destruct Hl|].
  split; [discriminate|reflexivity].
Qed.

(** C8, amended: whenever the store is missing, does not parse, or holds no
    clip of a recognized priority (in particular no clip at all), the turn
    of the loop does nothing but wait 10 seconds, and the loop tries
    again; the first load that yields a clip of a recognized priority
    starts a pass over a non-empty order. *)
Theorem idle_store_is_polled :
  forall (idle : list Round) (r : Round) (rest : list Round) (m : Machine),
    running (engineState m) = true ->
    Forall (fun r0 => nothing_to_play (playlistFile (opening r0)) = true)
           idle ->
    nothing_to_play (playlistFile (opening r)) = false ->
    exists m1 pl m2,
      whileRunning queueDir join (idle ++ r :: rest) m
      = (turn queueDir join r ;;; whileRunning queueDir join rest) m1
      /\ engineState m1 = engineState m
      /\ trace m1 = trace m ++ repeat (Wait 10000) (List.length idle)
      /\ loadPlaylist (playlistFile (opening r)) m1 = Ok (Some pl, m2)
      /\ getOrderedClips (heap m2) (Some pl) <> []
      /\ turn queueDir join r m1
         = runPass queueDir join r pl (getOrderedClips (heap m2) (Some pl)) m2.
Proof.
  intros idle r rest m R I B.
  assert (P : exists m1,
             whileRunning queueDir join (idle ++ r :: rest) m
             = (turn queueDir join r ;;; whileRunning queueDir join rest) m1
             /\ engineState m1 = engineState m
             /\ trace m1 = trace m ++ repeat (Wait 10000) (List.length idle)).
  { revert m R. induction I as [|r0 idle N _ IH]; intros m R.
    - exists m. cbn [app whileRunning List.length repeat].
      rewrite app_nil_r. unfold bind at 1, getState. rewrite R. auto.
    - destruct (turn_idle r0 m N) as (m0 & T & E & W).
      destruct (IH m0) as (m1 & L & E1 & W1); [congruence|].
      exists m1. cbn [app whileRunning List.length repeat].
      unfold bind at 1, getState. rewrite R. unfold bind at 1. rewrite T.
      split; [exact L|]. split; [congruence|].
      rewrite W1, W, <- app_assoc. reflexivity. }
  destruct P as (m1 & L & E & W).
  destruct (turn_busy r m1 B) as (pl & m2 & Ld & O & T).
  exists m1, pl, m2. repeat split; assumption.
Qed.
End SchedulerClaims.

(* ================================================================== *)
(** ** Closed instances                                               *)
(* ================================================================== *)

(** C8, as stated, fails: a playlist with one clip, of priority ["urgent"],
    is a playlist with at least one clip, yet the turn that loads it only
    waits. *)
Lemma one_urgent_clip_keeps_engine_waiting :
  ~ (forall (r : Round) (m m' : Machine) (j : PlaylistJson) (c : Clip)
            (cs : list Clip),
        playlistFile (opening r) = Parsed (Some j) ->
        json_clips j = Some (c :: cs) ->
        turn "queue" simple_join r m = Ok (tt, m') ->
        waits (trace m') = waits (trace m)).
Proof.
  intros H.
  pose (r := mkRound (world_with (Parsed (Some urgent_only)))
                     (fun _ => world_with (Parsed (Some urgent_only)))
                     (world_with (Parsed (Some urgent_only)))).
  destruct (turn_idle "queue" simple_join r (boot "2026-02-21T12:00:00Z") eq_refl)
    as (m' & T & _ & W).
  pose proof (H r _ m' urgent_only _ _ eq_refl eq_refl T) as F.
  rewrite W in F. discriminate.
Qed.

(** The ["urgent"] clip between a pinned and a normal clip is left out, and the two others are ordered as without it. *)
Lemma unrecognized_priority_in_no_bucket_witness :
  let pl := fst (parsePlaylist playlist_with_urgent emptyHeap) in
  let h := snd (parsePlaylist playlist_with_urgent emptyHeap) in
  In 1%nat (clips_of pl)
  /\ recognized (priority (h 1%nat)) = false
  /\ ~ In 1%nat (getOrderedClips h (Some pl))
  /\ getOrderedClips h (Some pl) = getOrderedClips h (Some (without 1%nat pl)).
Proof.
  intros pl h.
  assert (I : In 1%nat (clips_of pl)) by (right; left; reflexivity).
  assert (R : recognized (priority (h 1%nat)) = false) by reflexivity.
  destruct (unrecognized_priority_in_no_bucket h pl 1%nat I R)
    as (_ & _ & _ & _ & N & E).
  repeat split; assumption.
Defined.

(** The ordering scenario at T0 = 10 and T1 = 20. *)
Lemma getOrderedClips_tiered_order_witness :
  let pl := fst (parsePlaylist (ordering_scenario 10 20) emptyHeap) in
  let h := snd (parsePlaylist (ordering_scenario 10 20) emptyHeap) in
  dated h (clips_of pl) = true
  /\ 10 < 20
  /\ ids h (getOrderedClips h (Some pl)) = ["b"; "a"; "d"; "c"]%string
  /\ StronglySorted (fun a b => time_of (h a) <= time_of (h b))
                    (normal_of h (clips_of pl)).
Proof.
  intros pl h.
  assert (D : dated h (clips_of pl) = true) by reflexivity.
  assert (T : 10 < 20) by reflexivity.
  destruct (getOrderedClips_tiered_order h pl 10 20 D T)
    as (_ & _ & _ & _ & _ & _ & S & _ & _ & X).
  repeat split; assumption.
Defined.


(** Steps 1 and 2 of the pass over [x, y, z], with [w] in the store at both: [w] is announced twice. *)
Lemma breaking_clip_is_selected_again_witness :
  (exists c, In c (or_else (json_clips playlist_xyzw) []) /\ pending c = true)
  /\ exists m' m'',
       playStep "queue" simple_join
                (world_with (Parsed (Some playlist_xyzw))) pass_xyz
                (getOrderedClips (heap loaded_xyz) (Some pass_xyz)) 1
                loaded_xyz = Ok (tt, m')
       /\ playStep "queue" simple_join
                   (world_with (Parsed (Some playlist_xyzw))) pass_xyz
                   (getOrderedClips (heap loaded_xyz) (Some pass_xyz)) 2
                   m' = Ok (tt, m'')
       /\ now_playing (trace m'') = ["w"; "w"]%string.
Proof.
  assert (E : exists c, In c (or_else (json_clips playlist_xyzw) [])
                        /\ pending c = true).
  { exists (clip "w" "breaking" None (Some 4)).
    split; [|reflexivity]. do 3 right. left. reflexivity. }
  split; [exact E|].
  destruct (breaking_clip_is_selected_again
              "queue" simple_join playlist_xyzw _ eq_refl E)
    as (c & I & P & _ & S & _).
  destruct (S (world_with (Parsed (Some playlist_xyzw)))
              (world_with (Parsed (Some playlist_xyzw))) pass_xyz
              (getOrderedClips (heap loaded_xyz) (Some pass_xyz)) 1%nat
              loaded_xyz eq_refl eq_refl (Nat.lt_0_succ 0))
    as (m' & m'' & R1 & T1 & _ & R2 & T2).
  exists m', m''. split; [exact R1|]. split; [exact R2|].
  rewrite T2, T1.
  destruct I as [<-|[<-|[<-|[<-|[]]]]]; try discriminate P.
  unfold delivery_trace. reflexivity.
Defined.

(** The pass over [x, y, z] ends by writing [x, y, z] back over a store that holds [x, y, z, w]. *)
Lemma prune_removes_breaking_clips_witness :
  playlistFile (closing interruption) = Parsed (Some playlist_xyzw)
  /\ exists m1 m',
       runPass "queue" simple_join interruption pass_xyz
               (getOrderedClips (heap loaded_xyz) (Some pass_xyz)) loaded_xyz
       = Ok (tt, m')
       /\ trace m'
          = trace m1
              ++ [WriteState
                    (stringifyState (incr_loopCount (engineState m1)));
                  WritePlaylist playlist_xyz].
Proof.
  split; [reflexivity|].
  destruct (prune_removes_breaking_clips
              "queue" simple_join interruption pass_xyz
              (getOrderedClips (heap loaded_xyz) (Some pass_xyz)) loaded_xyz
              playlist_xyzw _ eq_refl eq_refl)
    as (m1 & m' & _ & R & T & _).
  exists m1, m'. split; [exact R|exact T].
Defined.

(** Step 0 of the pass over [x, y, z] when no clip file exists. *)
Lemma missing_clip_file_is_skipped_witness :
  let ordered := getOrderedClips (heap loaded_xyz) (Some pass_xyz) in
  selectClip bare_world pass_xyz ordered 0 loaded_xyz = Ok (0%nat, loaded_xyz)
  /\ existsSync bare_world (simple_join "queue" (path (heap loaded_xyz 0%nat)))
     = false
  /\ exists m',
       playStep "queue" simple_join bare_world pass_xyz ordered 0 loaded_xyz
       = Ok (tt, m')
       /\ errors (engineState m') = 1
       /\ clipsPlayed (engineState m') = 1.
Proof.
  intros ordered.
  assert (S : selectClip bare_world pass_xyz ordered 0 loaded_xyz
              = Ok (0%nat, loaded_xyz)) by reflexivity.
  assert (E : existsSync bare_world
                (simple_join "queue" (path (heap loaded_xyz 0%nat))) = false)
    by reflexivity.
  destruct (missing_clip_file_is_skipped
              "queue" simple_join (fun _ => bare_world) pass_xyz ordered
              0%nat 2%nat loaded_xyz 0%nat loaded_xyz S E)
    as (m' & R & Er & Cp & _).
  repeat split; try assumption.
  exists m'. repeat split; assumption.
Defined.

(** A restart over the state file of an earlier run. *)
Lemma restart_resumes_persisted_state_witness :
  j_loopCount (stringifyState saved_state) = Some 3
  /\ loopCount (loadState (Parsed (stringifyState saved_state))
                          (initialState "2026-02-21T12:00:00Z")) = 3
  /\ clipsPlayed (loadState (Parsed (stringifyState saved_state))
                            (initialState "2026-02-21T12:00:00Z")) = 12
  /\ errors (loadState (Parsed (stringifyState saved_state))
                       (initialState "2026-02-21T12:00:00Z")) = 2
  /\ startedAt (loadState (Parsed (stringifyState saved_state))
                          (initialState "2026-02-21T12:00:00Z"))
     = "2026-02-20T08:00:00Z"%string.
Proof.
  split; [reflexivity|].
  destruct (restart_resumes_persisted_state
              "queue" simple_join (stringifyState saved_state)
              (initialState "2026-02-21T12:00:00Z") 3 12 2
              "2026-02-20T08:00:00Z" eq_refl eq_refl eq_refl eq_refl)
    as (L & C & E & S & _).
  repeat split; assumption.
Defined.

(** A missing file, a garbled file and an empty playlist make three waits; then the pass over [x, y, z] starts. *)
Lemma idle_store_is_polled_witness :
  let quiet f := mkRound (world_with f) (fun _ => world_with f)
                         (world_with f) in
  let idle := [quiet Absent; quiet Garbled;
               quiet (Parsed (Some (mkPlaylistJson (Some []) [])))] in
  Forall (fun r0 => nothing_to_play (playlistFile (opening r0)) = true) idle
  /\ nothing_to_play (playlistFile (opening interruption)) = false
  /\ exists m1,
       whileRunning "queue" simple_join (idle ++ [interruption])
                    (boot "2026-02-21T12:00:00Z")
       = (turn "queue" simple_join interruption ;;;
          whileRunning "queue" simple_join []) m1
       /\ trace m1 = [Wait 10000; Wait 10000; Wait 10000].
Proof.
  intros quiet idle.
  assert (I : Forall (fun r0 => nothing_to_play (playlistFile (opening r0))
                                = true) idle)
    by (repeat constructor).
  assert (B : nothing_to_play (playlistFile (opening interruption)) = false)
    by reflexivity.
  destruct (idle_store_is_polled
              "queue" simple_join idle interruption []
              (boot "2026-02-21T12:00:00Z") eq_refl I B)
    as (m1 & pl & m2 & L & _ & T & _).
  repeat split; try assumption.
  exists m1. split; [exact L|exact T].
Defined.


(** A turn whose prune finds a garbled store writes no playlist. *)
Lemma failed_prune_writes_nothing_witness :
  let r := mkRound (world_with (Parsed (Some playlist_xyz)))
                   (fun _ => world_with (Parsed (Some playlist_xyzw)))
                   (world_with Garbled) in
  load_fails (playlistFile (closing r)) = true
  /\ exists m',
       turn "queue" simple_join r (boot "2026-02-21T12:00:00Z") = Ok (tt, m')
       /\ playlist_writes (trace m') = [].
Proof.
  intros r. split; [reflexivity|].
  destruct (failed_prune_writes_nothing
              "queue" simple_join r [] (boot "2026-02-21T12:00:00Z")
              eq_refl eq_refl)
    as (_ & m' & T & W & _).
  exists m'. split; [exact T|exact W].
Defined.

(** C2, as stated for every playlist, fails: of three normal clips the
    middle one has no valid addedAt, every comparison with it yields NaN,
    and the sequence comes out as [c0, c2, c1], with [c0] (addedAt 3)
    ahead of [c1] (addedAt 1). *)
Lemma undated_clip_breaks_date_order :
  ~ (forall (h : Heap) (pl : Playlist) (l1 l2 l3 : list loc) (a b : loc)
            (ta tb : Z),
        getOrderedClips h (Some pl) = l1 ++ a :: l2 ++ b :: l3 ->
        priority (h a) = "normal"%string ->
        priority (h b) = "normal"%string ->
        addedAt (h a) = Some ta ->
        addedAt (h b) = Some tb ->
        ta <= tb).
Proof.
  intros H.
  assert (F : 3 <= 1); [|lia].
  apply (H (snd (parsePlaylist normals_one_undated emptyHeap))
           (fst (parsePlaylist normals_one_undated emptyHeap))
           [] [1%nat] [] 0%nat 2%nat); reflexivity.
Qed.


(* ================================================================== *)
(** ** More about the ordering policy                                 *)
(* ================================================================== *)

Lemma insert_ext_in {A : Type} (cmp cmp' : A -> A -> number) (x : A)
      (l : list A) :
  (forall b, In b l -> cmp x b = cmp' x b) ->
  insert cmp x l = insert cmp' x l.
Proof.
  induction l as [|y l IH]; intros H; [reflexivity|].
  simpl. unfold SortCompare. rewrite (H y) by now left.
  destruct (_ <=? 0); [reflexivity|].
  f_equal. apply IH. intros b Hb. apply H. now right.
Qed.

Lemma sort_ext_in {A : Type} (cmp cmp' : A -> A -> number) (l : list A) :
  (forall a b, In a l -> In b l -> cmp a b = cmp' a b) ->
  sort cmp l = sort cmp' l.
Proof.
  induction l as [|x l IH]; intros H; [reflexivity|].
  simpl. rewrite <- IH by (intros; apply H; now right).
  apply insert_ext_in. intros b Hb. apply sort_In in Hb.
  apply H; [now left|now right].
Qed.

Lemma sort_of_sorted {A : Type} (cmp : A -> A -> number) (key : A -> Z)
      (l : list A) :
  keyed_on cmp key l -> StronglySorted (key_le key) l -> sort cmp l = l.
Proof.
  intros K S. apply (sorted_unique key); [now apply sort_sorted|exact S|].
  intros k. now apply sort_stable.
Qed.

Lemma filter_all {A : Type} (p : A -> bool) (l : list A) :
  (forall a, In a l -> p a = true) -> filter p l = l.
Proof.
  induction l as [|x l IH]; simpl; intros H; [reflexivity|].
  rewrite (H x) by auto. f_equal. apply IH. auto.
Qed.

Lemma perm_middle2 {A : Type} (x : A) (a b y : list A) :
  Permutation (x :: a ++ b ++ y) (a ++ b ++ x :: y).
Proof.
  replace (a ++ b ++ y) with ((a ++ b) ++ y) by (now rewrite <- app_assoc).
  replace (a ++ b ++ x :: y) with ((a ++ b) ++ x :: y)
    by (now rewrite <- app_assoc).
  apply Permutation_middle.
Qed.

Lemma perm_middle3 {A : Type} (x : A) (a b c y : list A) :
  Permutation (x :: a ++ b ++ c ++ y) (a ++ b ++ c ++ x :: y).
Proof.
  replace (a ++ b ++ c ++ y) with ((a ++ b ++ c) ++ y)
    by (now rewrite <- !app_assoc).
  replace (a ++ b ++ c ++ x :: y) with ((a ++ b ++ c) ++ x :: y)
    by (now rewrite <- !app_assoc).
  apply Permutation_middle.
Qed.

Lemma tiers_partition (h : Heap) (l : list loc) :
  Permutation
    (filter (has_priority h "pinned") l ++ filter (has_priority h "breaking") l
       ++ filter (has_priority h "normal") l
       ++ filter (has_priority h "filler") l)
    (filter (fun c => recognized (priority (h c))) l).
Proof.
  induction l as [|x l IH]; [constructor|].
  cbn [filter].
  assert (R : recognized (priority (h x))
              = has_priority h "pinned" x || has_priority h "breaking" x
                || has_priority h "normal" x || has_priority h "filler" x)
    by reflexivity.
  rewrite R.
  destruct (has_priority h "pinned" x) eqn:E1;
    destruct (has_priority h "breaking" x) eqn:E2;
    destruct (has_priority h "normal" x) eqn:E3;
    destruct (has_priority h "filler" x) eqn:E4;
    unfold has_priority in E1, E2, E3, E4;
    try (apply String.eqb_eq in E1; rewrite E1 in *; discriminate);
    try (apply String.eqb_eq in E2; rewrite E2 in *; discriminate);
    try (apply String.eqb_eq in E3; rewrite E3 in *; discriminate);
    cbn [orb]; try exact IH;
    symmetry; (etransitivity; [apply perm_skip; symmetry; exact IH|]).
  - reflexivity.
  - apply Permutation_middle.
  - apply perm_middle2.
  - apply perm_middle3.
Qed.

(** The baseline sequence holds every clip of a recognized priority once
    for each time the playlist holds it, and nothing else: the policy
    neither repeats nor invents a clip, and it loses only clips whose
    priority it does not know. *)
Theorem getOrderedClips_permutes_recognized :
  forall (h : Heap) (pl : Playlist),
    Permutation (getOrderedClips h (Some pl))
                (filter (fun c => recognized (priority (h c))) (clips_of pl))
    /\ (List.length (getOrderedClips h (Some pl))
        <= List.length (clips_of pl))%nat
    /\ (NoDup (clips_of pl) -> NoDup (getOrderedClips h (Some pl))).
Proof.
  intros h pl.
  assert (P : Permutation (getOrderedClips h (Some pl))
                (filter (fun c => recognized (priority (h c))) (clips_of pl))).
  { rewrite getOrderedClips_tiers, <- tiers_partition.
    unfold pinned_of, breaking_of, normal_of, filler_of.
    now rewrite !sort_perm. }
  split; [exact P|]. split.
  - rewrite (Permutation_length P). apply filter_length_le.
  - intros N. eapply Permutation_NoDup; [symmetry; exact P|].
    now apply NoDup_filter.
Qed.

(** Two heaps that agree on priority, position-or-0 and addedAt order a
    playlist alike. *)
Lemma getOrderedClips_ext (h h' : Heap) (pl : Playlist) :
  same_order_keys h h' (clips_of pl) ->
  getOrderedClips h' (Some pl) = getOrderedClips h (Some pl).
Proof.
  intros S. rewrite !getOrderedClips_tiers.
  assert (F : forall p, filter (has_priority h' p) (clips_of pl)
                        = filter (has_priority h p) (clips_of pl)).
  { intros p. apply filter_ext_in. intros a Ha.
    unfold has_priority. now rewrite (proj1 (S a Ha)). }
  assert (C : forall p (cmp : Clip -> Clip -> number),
             (forall a b, In a (clips_of pl) -> In b (clips_of pl) ->
                          cmp (h' a) (h' b) = cmp (h a) (h b)) ->
             sort (on_heap h' cmp) (filter (has_priority h p) (clips_of pl))
             = sort (on_heap h cmp)
                    (filter (has_priority h p) (clips_of pl))).
  { intros p cmp E. apply sort_ext_in. intros a b Ha Hb.
    apply filter_In in Ha, Hb. unfold on_heap. apply E; tauto. }
  unfold pinned_of, breaking_of, normal_of, filler_of. rewrite !F.
  rewrite (C "pinned"%string by_position), (C "breaking"%string newest_first),
    (C "normal"%string oldest_first); try reflexivity;
    intros a b Ha Hb; destruct (S a Ha) as (_ & Pa & Da);
    destruct (S b Hb) as (_ & Pb & Db);
    unfold by_position, newest_first, oldest_first;
    now rewrite ?Pa, ?Pb, ?Da, ?Db.
Qed.

Lemma same_order_keys_marked (h h' : Heap) (arr : list loc) (b : loc) :
  same_order_keys h h' arr -> same_order_keys h (update b set_played h') arr.
Proof.
  intros S l Hl. destruct (S l Hl) as (P & Q & D).
  unfold update. cbn [cell].
  destruct (Nat.eqb l b) eqn:E; [|auto].
  apply Nat.eqb_eq in E. subst l. auto.
Qed.

(** The policy reads a clip's priority, its position with 0 for a missing
    one, and its addedAt, and nothing else: two heaps that agree on these
    give the same sequence.  In particular the played mark, set on any
    clip, leaves the order as it was. *)
Theorem getOrderedClips_reads_three_keys :
  forall (h h' : Heap) (pl : Playlist),
    same_order_keys h h' (clips_of pl) ->
    getOrderedClips h' (Some pl) = getOrderedClips h (Some pl)
    /\ forall b : loc,
         getOrderedClips (update b set_played h') (Some pl)
         = getOrderedClips h (Some pl).
Proof.
  intros h h' pl S. split; [now apply getOrderedClips_ext|].
  intros b. now apply getOrderedClips_ext, same_order_keys_marked.
Qed.

Lemma dated_incl (h : Heap) (l l' : list loc) :
  incl l' l -> dated h l = true -> dated h l' = true.
Proof.
  unfold dated. rewrite !forallb_forall. intros I D c Hc. apply D. now apply I.
Qed.

(** Ordering is idempotent: the sequence, given back to the policy as a
    playlist, comes out as it went in. *)
Theorem getOrderedClips_idempotent :
  forall (h : Heap) (pl : Playlist) (o : list (string * string)),
    dated h (clips_of pl) = true ->
    getOrderedClips
      h (Some (mkPlaylist (Some (getOrderedClips h (Some pl))) o))
    = getOrderedClips h (Some pl).
Proof.
  intros h pl o D.
  set (arr := clips_of pl).
  assert (Inc : incl (getOrderedClips h (Some pl)) arr)
    by (intros c Hc; now apply In_getOrderedClips in Hc).
  pose proof (dated_incl h _ _ Inc D) as D'.
  rewrite (getOrderedClips_tiers h (mkPlaylist _ o)).
  unfold clips_of at 1 2 3 4. cbn [clips or_else].
  rewrite (getOrderedClips_tiers h pl) in *. fold arr in D' |- *.
  assert (T : forall p q l,
             (forall a, In a l -> has_priority h q a = true) ->
             String.eqb q p = false -> filter (has_priority h p) l = []).
  { intros p q l H E. apply filter_none. intros a Ha.
    specialize (H a Ha). unfold has_priority in *.
    apply String.eqb_eq in H. now rewrite H. }
  assert (Pin : forall a, In a (pinned_of h arr) ->
                          has_priority h "pinned" a = true)
    by (intros a Ha; apply sort_In, filter_In in Ha; tauto).
  assert (Brk : forall a, In a (breaking_of h arr) ->
                          has_priority h "breaking" a = true)
    by (intros a Ha; apply sort_In, filter_In in Ha; tauto).
  assert (Nor : forall a, In a (normal_of h arr) ->
                          has_priority h "normal" a = true)
    by (intros a Ha; apply sort_In, filter_In in Ha; tauto).
  assert (Fil : forall a, In a (filler_of h arr) ->
                          has_priority h "filler" a = true)
    by (intros a Ha; apply filter_In in Ha; tauto).
  set (O := pinned_of h arr ++ breaking_of h arr ++ normal_of h arr
              ++ filler_of h arr) in *.
  assert (F1 : filter (has_priority h "pinned") O = pinned_of h arr).
  { unfold O. rewrite !filter_app, (filter_all _ _ Pin),
      (T _ _ _ Brk), (T _ _ _ Nor), (T _ _ _ Fil) by reflexivity.
    now rewrite !app_nil_r. }
  assert (F2 : filter (has_priority h "breaking") O = breaking_of h arr).
  { unfold O. rewrite !filter_app, (filter_all _ _ Brk),
      (T _ _ _ Pin), (T _ _ _ Nor), (T _ _ _ Fil) by reflexivity.
    now rewrite !app_nil_r. }
  assert (F3 : filter (has_priority h "normal") O = normal_of h arr).
  { unfold O. rewrite !filter_app, (filter_all _ _ Nor),
      (T _ _ _ Pin), (T _ _ _ Brk), (T _ _ _ Fil) by reflexivity.
    now rewrite !app_nil_r. }
  assert (F4 : filter (has_priority h "filler") O = filler_of h arr).
  { unfold O. rewrite !filter_app, (filter_all _ _ Fil),
      (T _ _ _ Pin), (T _ _ _ Brk), (T _ _ _ Nor) by reflexivity.
    reflexivity. }
  unfold pinned_of at 1, breaking_of at 1, normal_of at 1, filler_of at 1.
  rewrite F1, F2, F3, F4.
  assert (S1 : sort (on_heap h by_position) (pinned_of h arr)
               = pinned_of h arr).
  { apply (sort_of_sorted _ (fun c => position_or_0 (h c)));
      [apply by_position_keyed|].
    apply sort_sorted, by_position_keyed. }
  assert (S2 : sort (on_heap h newest_first) (breaking_of h arr)
               = breaking_of h arr).
  { apply (sort_of_sorted _ (fun c => - time_of (h c))).
    - rewrite <- F2. now apply newest_first_keyed.
    - apply sort_sorted. now apply newest_first_keyed. }
  assert (S3 : sort (on_heap h oldest_first) (normal_of h arr)
               = normal_of h arr).
  { apply (sort_of_sorted _ (fun c => time_of (h c))).
    - rewrite <- F3. now apply oldest_first_keyed.
    - apply sort_sorted. now apply oldest_first_keyed. }
  now rewrite S1, S2, S3.
Qed.

(* ================================================================== *)
(** ** More about the play step                                       *)
(* ================================================================== *)

Lemma announced_app (t u : list Event) :
  announced (t ++ u) = announced t ++ announced u.
Proof.
  induction t as [|e t IH]; simpl; [reflexivity|].
  destruct e; simpl; now rewrite IH.
Qed.

Lemma state_writes_app (t u : list Event) :
  state_writes (t ++ u) = state_writes t ++ state_writes u.
Proof.
  induction t as [|e t IH]; simpl; [reflexivity|].
  destruct e; simpl; now rewrite IH.
Qed.

Lemma transitions_app (t u : list Event) :
  transitions (t ++ u) = (transitions t + transitions u)%nat.
Proof.
  induction t as [|e t IH]; simpl; [reflexivity|].
  destruct e; simpl; now rewrite IH.
Qed.

Lemma delivery_trace_readings (w : World) (p : string) (c : Clip) (i n : nat)
      (s : EngineState) :
  announced (delivery_trace w p c i n s) = [c]
  /\ state_writes (delivery_trace w p c i n s)
     = [stringifyState (set_current (id c) i s)]
  /\ transitions (delivery_trace w p c i n s) = 1%nat.
Proof.
  unfold delivery_trace, delivery_event.
  destruct (existsSync w p); repeat split; reflexivity.
Qed.

(** Choosing the clip changes neither the engine state nor, apart from a
    [Breaking] line, the trace. *)
Lemma selectClip_effects (w : World) (playlist : Playlist)
      (ordered : list loc) (i : nat) (m : Machine) (c : loc) (m1 : Machine) :
  selectClip w playlist ordered i m = Ok (c, m1) ->
  engineState m1 = engineState m
  /\ (trace m1 = trace m \/ exists x, trace m1 = trace m ++ [Breaking x]).
Proof.
  destruct (loadPlaylist_total (playlistFile w) m)
    as (fp & m0 & L & S & T & _).
  rewrite (selectClip_after_load _ _ _ _ _ _ _ L).
  assert (A : at_index ordered i m0 = Ok (c, m1) ->
              engineState m1 = engineState m
              /\ (trace m1 = trace m
                  \/ exists x, trace m1 = trace m ++ [Breaking x])).
  { unfold at_index. destruct (nth_error ordered i); [|discriminate].
    unfold ret. intros E. injection E as <- <-. auto. }
  destruct (filter _ _) as [|b rest]; [exact A|].
  destruct (0 <? i)%nat; [|exact A].
  intros E. injection E as <- <-. cbn [engineState trace].
  split; [exact S|]. right. rewrite T. eauto.
Qed.

Lemma after_delivery_counts (w : World) (p : string) (c : Clip) (i : nat)
      (s : EngineState) :
  running (after_delivery w p c i s) = running s
  /\ startedAt (after_delivery w p c i s) = startedAt s
  /\ loopCount (after_delivery w p c i s) = loopCount s
  /\ clipsPlayed (after_delivery w p c i s) = clipsPlayed s + 1
  /\ errors (after_delivery w p c i s)
     = errors s + (if delivered_ok w p then 0 else 1)
  /\ currentIndex (after_delivery w p c i s) = Z.of_nat i
  /\ currentClipId (after_delivery w p c i s) = Some (id c).
Proof.
  unfold after_delivery, outcome, delivered_ok.
  destruct (existsSync w p); [|repeat split; simpl; lia].
  destruct (ffmpeg w p) as [[[|z|z]|]|]; repeat split; simpl; lia.
Qed.

Section StepExtras.
Variable queueDir : string.
Variable join : string -> string -> string.

(** The step, once the reload is known. *)
Lemma playStep_cases (w : World) (playlist : Playlist) (ordered : list loc)
      (i : nat) (m : Machine) (fp : option Playlist) (m1 : Machine)
      (base : loc) :
  loadPlaylist (playlistFile w) m = Ok (fp, m1) ->
  nth_error ordered i = Some base ->
  playStep queueDir join w playlist ordered i m
  = Ok (tt,
        match filter (pending_breaking (heap m1))
                     (getOrderedClips (heap m1)
                                      (Some (or_else fp playlist))) with
        | b :: _ =>
            if (0 <? i)%nat then
              step_result w (join queueDir (path (heap m1 b)))
                          (List.length ordered) i b (engineState m1)
                          (update b set_played (heap m1))
                          (trace m1 ++ [Breaking (set_played (heap m1 b))])
            else
              step_result w (join queueDir (path (heap m1 base)))
                          (List.length ordered) i base (engineState m1)
                          (heap m1) (trace m1)
        | [] =>
            step_result w (join queueDir (path (heap m1 base)))
                        (List.length ordered) i base (engineState m1)
                        (heap m1) (trace m1)
        end).
Proof.
  intros L N. unfold playStep, bind.
  rewrite (selectClip_after_load _ _ _ _ _ _ _ L).
  assert (A : at_index ordered i m1 = Ok (base, m1))
    by (unfold at_index; now rewrite N).
  destruct (filter _ _) as [|b rest]; [rewrite A; apply deliver_spec|].
  destruct (0 <? i)%nat; [|rewrite A; apply deliver_spec].
  rewrite deliver_spec. unfold step_result.
  cbn [heap engineState trace update cell]. now rewrite Nat.eqb_refl.
Qed.

(** One step inside the pass: what it adds to the trace and how the
    counters move. *)
Lemma playStep_facts (w : World) (playlist : Playlist) (ordered : list loc)
      (i : nat) (m : Machine) :
  (i < List.length ordered)%nat ->
  exists m',
    playStep queueDir join w playlist ordered i m = Ok (tt, m')
    /\ plays 1 (trace m) (trace m')
    /\ advances (engineState m) (engineState m')
    /\ loopCount (engineState m') = loopCount (engineState m)
    /\ clipsPlayed (engineState m') = clipsPlayed (engineState m) + 1.
Proof.
  intros Hi.
  destruct (selectClip_total w playlist ordered i m Hi)
    as (c & m1 & S & _).
  destruct (selectClip_effects _ _ _ _ _ _ _ S) as (E & T).
  unfold playStep, bind. rewrite S, deliver_spec.
  eexists. split; [reflexivity|]. cbn [trace engineState].
  destruct (after_delivery_counts w (join queueDir (path (heap m1 c)))
              (heap m1 c) i (engineState m1))
    as (R & St & Lc & Cp & Er & _).
  destruct (delivery_trace_readings w (join queueDir (path (heap m1 c)))
              (heap m1 c) i (List.length ordered) (engineState m1))
    as (An & Sw & Tr).
  destruct (delivery_trace_quiet w (join queueDir (path (heap m1 c)))
              (heap m1 c) i (List.length ordered) (engineState m1))
    as (Pw & Wt).
  rewrite E in *.
  split; [|split; [|split; [exact Lc|exact Cp]]].
  - unfold plays.
    rewrite announced_app, state_writes_app, transitions_app, waits_app,
      playlist_writes_app, An, Sw, Tr, Pw, Wt, !length_app, !app_nil_r.
    destruct T as [->|[x ->]];
      rewrite ?announced_app, ?state_writes_app, ?transitions_app, ?waits_app,
        ?playlist_writes_app; simpl; rewrite ?app_nil_r;
      repeat split; lia.
  - unfold advances. rewrite R, St, Lc, Cp, Er.
    destruct (delivered_ok _ _); repeat split; lia.
Qed.

Lemma forLoop_facts (ws : nat -> World) (playlist : Playlist)
      (ordered : list loc) (n i : nat) (m : Machine) :
  (i + n <= List.length ordered)%nat ->
  exists m',
    forLoop queueDir join ws playlist ordered n i m = Ok (tt, m')
    /\ plays n (trace m) (trace m')
    /\ advances (engineState m) (engineState m')
    /\ loopCount (engineState m') = loopCount (engineState m)
    /\ clipsPlayed (engineState m') = clipsPlayed (engineState m) + Z.of_nat n.
Proof.
  revert i m. induction n as [|n IH]; intros i m Hn.
  - exists m. simpl. unfold plays, advances.
    repeat split; auto; lia.
  - destruct (playStep_facts (ws i) playlist ordered i m)
      as (m1 & P & Pl1 & A1 & L1 & C1); [lia|].
    destruct (IH (S i) m1) as (m2 & F & Pl2 & A2 & L2 & C2); [lia|].
    exists m2. cbn [forLoop]. unfold bind. rewrite P, F.
    unfold plays, advances in *.
    destruct Pl1 as (a1 & b1 & c1 & d1 & e1).
    destruct Pl2 as (a2 & b2 & c2 & d2 & e2).
    destruct A1 as (r1 & s1 & l1 & p1 & x1).
    destruct A2 as (r2 & s2 & l2 & p2 & x2).
    repeat split; try lia; congruence.
Qed.
End StepExtras.

Lemma advances_refl (s : EngineState) : advances s s.
Proof. unfold advances. repeat split; lia. Qed.

Lemma advances_trans (s1 s2 s3 : EngineState) :
  advances s1 s2 -> advances s2 s3 -> advances s1 s3.
Proof.
  unfold advances. intros (r1 & t1 & l1 & c1 & e1) (r2 & t2 & l2 & c2 & e2).
  repeat split; try lia; congruence.
Qed.

(** The prune of a store it can work on returns, leaves the engine state
    alone and writes at most one playlist document. *)
Lemma prune_total (w : World) (m : Machine) :
  prunable (playlistFile w) = true ->
  exists m',
    prune w m = Ok (tt, m')
    /\ engineState m' = engineState m
    /\ announced (trace m') = announced (trace m)
    /\ state_writes (trace m') = state_writes (trace m)
    /\ transitions (trace m') = transitions (trace m)
    /\ waits (trace m') = waits (trace m).
Proof.
  intros P. destruct (playlistFile w) as [| |[j|]] eqn:F;
    try (exists m; rewrite prune_nothing by (now rewrite F); auto 10).
  simpl in P. destruct (json_clips j) as [cs|] eqn:J; [|discriminate].
  rewrite (prune_parsed w m j cs F J). eexists. split; [reflexivity|].
  cbn [engineState trace].
  rewrite announced_app, state_writes_app, transitions_app, waits_app.
  simpl. rewrite !app_nil_r. auto 10.
Qed.


Section EngineExtras.
Variable queueDir : string.
Variable join : string -> string -> string.

(* ================================================================== *)
(** ** Counters and the state file                                    *)
(* ================================================================== *)

(** Every step counts one played clip and ends with one transition,
    whatever the delivery did; it counts one error unless the clip file was
    there and ffmpeg closed with exit code 0, so that a missing file, a
    non-zero exit code, a death by signal and a failure to start ffmpeg
    all count alike. *)
Theorem playStep_counts_errors :
  forall (w : World) (playlist : Playlist) (ordered : list loc) (i : nat)
         (m : Machine) (c : loc) (m1 : Machine),
    selectClip w playlist ordered i m = Ok (c, m1) ->
    exists m',
      playStep queueDir join w playlist ordered i m = Ok (tt, m')
      /\ clipsPlayed (engineState m') = clipsPlayed (engineState m) + 1
      /\ errors (engineState m')
         = errors (engineState m)
           + (if delivered_ok w (join queueDir (path (heap m1 c))) then 0
              else 1)
      /\ transitions (trace m') = S (transitions (trace m1)).
Proof.
  intros w playlist ordered i m c m1 S.
  destruct (selectClip_effects _ _ _ _ _ _ _ S) as (E & _).
  unfold playStep, bind. rewrite S, deliver_spec.
  eexists. split; [reflexivity|]. cbn [engineState trace].
  destruct (after_delivery_counts w (join queueDir (path (heap m1 c)))
              (heap m1 c) i (engineState m1))
    as (_ & _ & _ & Cp & Er & _).
  destruct (delivery_trace_readings w (join queueDir (path (heap m1 c)))
              (heap m1 c) i (List.length ordered) (engineState m1))
    as (_ & _ & Tr).
  rewrite transitions_app, Tr, Cp, Er, E. repeat split. lia.
Qed.

(** The state file is written once per step, before the clip goes out: it
    names the clip and the index of the step but carries the counters as
    they stood before the step, so a restart from it finds [clipsPlayed]
    one behind the engine that wrote it. *)
Theorem state_file_lags_by_one_delivery :
  forall (w : World) (playlist : Playlist) (ordered : list loc) (i : nat)
         (m : Machine) (c : loc) (m1 : Machine),
    selectClip w playlist ordered i m = Ok (c, m1) ->
    exists m' doc,
      playStep queueDir join w playlist ordered i m = Ok (tt, m')
      /\ state_writes (trace m') = state_writes (trace m) ++ [doc]
      /\ j_currentClipId doc = Some (Some (id (heap m1 c)))
      /\ j_currentIndex doc = Some (Z.of_nat i)
      /\ j_clipsPlayed doc = Some (clipsPlayed (engineState m))
      /\ j_errors doc = Some (errors (engineState m))
      /\ forall defaults : EngineState,
           clipsPlayed (loadState (Parsed doc) defaults)
           = clipsPlayed (engineState m') - 1.
Proof.
  intros w playlist ordered i m c m1 S.
  destruct (selectClip_effects _ _ _ _ _ _ _ S) as (E & T).
  unfold playStep, bind. rewrite S, deliver_spec.
  eexists _, _. split; [reflexivity|]. cbn [engineState trace].
  destruct (after_delivery_counts w (join queueDir (path (heap m1 c)))
              (heap m1 c) i (engineState m1))
    as (_ & _ & _ & Cp & _).
  destruct (delivery_trace_readings w (join queueDir (path (heap m1 c)))
              (heap m1 c) i (List.length ordered) (engineState m1))
    as (_ & Sw & _).
  rewrite state_writes_app, Sw, Cp, E.
  split.
  { destruct T as [->|[x ->]]; [reflexivity|].
    rewrite state_writes_app. simpl. now rewrite app_nil_r. }
  repeat split; simpl; try reflexivity. intros. lia.
Qed.

(** A step announces either the clip the base order has at its index, as
    the pass loaded it, or, past the opening slot, a breaking clip that it
    has just marked: a clip of any other priority that enters the store
    during the pass is not played in that pass. *)
Theorem step_announces_base_or_breaking :
  forall (w : World) (playlist : Playlist) (ordered : list loc) (i : nat)
         (m : Machine) (base : loc),
    nth_error ordered i = Some base ->
    (base < next (heap m))%nat ->
    exists m' c,
      playStep queueDir join w playlist ordered i m = Ok (tt, m')
      /\ announced (trace m') = announced (trace m) ++ [c]
      /\ (c = heap m base
          \/ ((0 < i)%nat /\ priority c = "breaking"%string
              /\ _played c = true)).
Proof.
  intros w playlist ordered i m base N B.
  destruct (loadPlaylist_total (playlistFile w) m)
    as (fp & m1 & L & _ & T & Old).
  rewrite (playStep_cases queueDir join _ _ _ _ _ _ _ _ L N).
  assert (Base : exists m' c,
             Ok (tt, step_result w (join queueDir (path (heap m1 base)))
                                 (List.length ordered) i base (engineState m1)
                                 (heap m1) (trace m1))
             = Ok (tt, m')
             /\ announced (trace m') = announced (trace m) ++ [c]
             /\ (c = heap m base
                 \/ ((0 < i)%nat /\ priority c = "breaking"%string
                     /\ _played c = true))).
  { eexists _, _. split; [reflexivity|]. unfold step_result. cbn [trace].
    rewrite announced_app, T.
    rewrite (proj1 (delivery_trace_readings _ _ _ _ _ _)).
    split; [reflexivity|]. left. now apply Old. }
  destruct (filter _ _) as [|b rest] eqn:E; [exact Base|].
  destruct (0 <? i)%nat eqn:Hi; [|exact Base].
  eexists _, _. split; [reflexivity|]. unfold step_result. cbn [trace].
  rewrite !announced_app, T.
  rewrite (proj1 (delivery_trace_readings _ _ _ _ _ _)).
  simpl. rewrite app_nil_r. split; [reflexivity|]. right.
  assert (I : In b (filter (pending_breaking (heap m1))
                           (getOrderedClips (heap m1)
                                            (Some (or_else fp playlist)))))
    by (rewrite E; now left).
  apply filter_In in I. destruct I as [_ I].
  unfold pending_breaking, has_priority in I.
  apply andb_true_iff in I. destruct I as [I _]. apply String.eqb_eq in I.
  unfold update. cbn [cell]. rewrite Nat.eqb_refl.
  split; [now apply Nat.ltb_lt|]. split; [exact I|reflexivity].
Qed.

(* ================================================================== *)
(** ** A whole pass and the loop                                      *)
(* ================================================================== *)

(** A pass over [n] clips whose prune can work on what it reads returns
    with [loopCount] one higher and [clipsPlayed] [n] higher, with between
    0 and [n] more errors, after [n] announcements and [n] transitions;
    the last state file it wrote holds the engine state it ends in. *)
Theorem runPass_accounts :
  forall (r : Round) (playlist : Playlist) (ordered : list loc) (m : Machine),
    prunable (playlistFile (closing r)) = true ->
    exists m' t,
      runPass queueDir join r playlist ordered m = Ok (tt, m')
      /\ loopCount (engineState m') = loopCount (engineState m) + 1
      /\ clipsPlayed (engineState m')
         = clipsPlayed (engineState m) + Z.of_nat (List.length ordered)
      /\ 0 <= errors (engineState m') - errors (engineState m)
           <= Z.of_nat (List.length ordered)
      /\ List.length (announced (trace m'))
         = (List.length (announced (trace m)) + List.length ordered)%nat
      /\ transitions (trace m')
         = (transitions (trace m) + List.length ordered)%nat
      /\ state_writes (trace m') = t ++ [stringifyState (engineState m')]
      /\ List.length t
         = (List.length (state_writes (trace m)) + List.length ordered)%nat.
Proof.
  intros r playlist ordered m P.
  destruct (forLoop_facts queueDir join (at_step r) playlist ordered
              (List.length ordered) 0 m)
    as (m1 & F & (An & Sw & Tr & _) & (_ & _ & _ & _ & Er) & Lc & Cp); [lia|].
  destruct (prune_total
              (closing r)
              (mkMachine (incr_loopCount (engineState m1)) (heap m1)
                         (trace m1
                            ++ [WriteState
                                  (stringifyState
                                     (incr_loopCount (engineState m1)))]))
              P)
    as (m' & Pr & E' & An' & Sw' & Tr' & _).
  cbn [engineState trace] in *.
  exists m', (state_writes (trace m1)).
  split.
  { unfold runPass, bind at 1. rewrite F.
    unfold bind, modifyState, saveState, getState, emit.
    cbn [engineState heap trace]. unfold bind.
    cbn [engineState heap trace]. exact Pr. }
  rewrite E', An', Sw', Tr', announced_app, state_writes_app, transitions_app.
  simpl. rewrite ?app_nil_r, ?Nat.add_0_r.
  repeat split; try lia; auto.
Qed.


Lemma turn_facts (r : Round) (m : Machine) :
  prunable (playlistFile (closing r)) = true ->
  exists m',
    turn queueDir join r m = Ok (tt, m')
    /\ advances (engineState m) (engineState m').
Proof.
  intros P.
  destruct (nothing_to_play (playlistFile (opening r))) eqn:N.
  - destruct (turn_idle queueDir join r m N) as (m' & T & E & _).
    exists m'. split; [exact T|]. rewrite E. apply advances_refl.
  - destruct (turn_busy queueDir join r m N) as (pl & m2 & L & _ & T).
    destruct (loadPlaylist_total (playlistFile (opening r)) m)
      as (fp & m2' & L' & E & _).
    rewrite L in L'. injection L' as <- <-.
    rewrite T.
    destruct (forLoop_facts queueDir join (at_step r) pl
                (getOrderedClips (heap m2) (Some pl))
                (List.length (getOrderedClips (heap m2) (Some pl))) 0 m2)
      as (m3 & F & _ & A & _); [lia|].
    destruct (prune_total
                (closing r)
                (mkMachine (incr_loopCount (engineState m3)) (heap m3)
                           (trace m3
                              ++ [WriteState
                                    (stringifyState
                                       (incr_loopCount (engineState m3)))]))
                P)
      as (m' & Pr & E' & _).
    exists m'. split.
    + unfold runPass, bind at 1. rewrite F.
      unfold bind, modifyState, saveState, getState, emit.
      cbn [engineState heap trace]. unfold bind.
      cbn [engineState heap trace]. exact Pr.
    + cbn [engineState] in E'. rewrite E', <- E.
      eapply advances_trans; [exact A|].
      unfold advances. simpl. repeat split; lia.
Qed.

(** Across any number of turns whose prunes can work on what they read,
    the loop returns and the engine state only moves forward: [running]
    and [startedAt] stay as they are (the loop never stops itself),
    [loopCount] and [clipsPlayed] never fall, and [errors] grows by no
    more than [clipsPlayed] does. *)
Theorem whileRunning_only_advances :
  forall (rounds : list Round) (m : Machine),
    Forall (fun r => prunable (playlistFile (closing r)) = true) rounds ->
    exists m',
      whileRunning queueDir join rounds m = Ok (tt, m')
      /\ advances (engineState m) (engineState m').
Proof.
  intros rounds m F. revert m.
  induction F as [|r rounds P _ IH]; intros m.
  - exists m. split; [reflexivity|apply advances_refl].
  - cbn [whileRunning]. unfold bind at 1, getState.
    destruct (running (engineState m));
      [|exists m; split; [reflexivity|apply advances_refl]].
    destruct (turn_facts r m P) as (m1 & T & A1).
    destruct (IH m1) as (m2 & W & A2).
    exists m2. unfold bind. rewrite T. split; [exact W|].
    eapply advances_trans; eassumption.
Qed.

(* ================================================================== *)
(** ** What a pass plays                                              *)
(* ================================================================== *)

Lemma strictly_latest_top (c : Clip) (cs : list Clip) :
  breaking_dated cs -> strictly_latest c cs -> top_pending cs = Some c.
Proof.
  intros D (I & P & U).
  destruct (top_pending_exists cs (ex_intro _ c (conj I P))) as [c' T].
  destruct (top_pending_spec cs c' T) as (I' & P' & U' & Latest).
  rewrite T. f_equal. apply U; [exact I'| |apply (Latest D c I P)].
  unfold pending. now rewrite P', U'.
Qed.

(** As long as every reload shows the same clip as the one pending
    breaking clip with the latest date, among breaking clips that all
    carry a valid date, that clip fills every slot past the opening one:
    [k] steps in a row announce it [k] times, whatever the base order has
    in those slots and whatever else the store holds. *)
Theorem breaking_clip_takes_every_later_slot :
  forall (ws : nat -> World) (playlist : Playlist) (ordered : list loc)
         (c : Clip) (k i : nat) (m : Machine),
    (0 < i)%nat ->
    (forall s, (i <= s < i + k)%nat ->
       exists j cs,
         playlistFile (ws s) = Parsed (Some j)
         /\ json_clips j = Some cs
         /\ breaking_dated cs
         /\ strictly_latest c cs) ->
    exists m',
      forLoop queueDir join ws playlist ordered k i m = Ok (tt, m')
      /\ announced (trace m')
         = announced (trace m) ++ repeat (set_played c) k.
Proof.
  intros ws playlist ordered c k. induction k as [|k IH];
    intros i m Hi F.
  - exists m. simpl. now rewrite app_nil_r.
  - destruct (F i ltac:(lia)) as (j & cs & Fi & J & D & L).
    destruct (playStep_breaking queueDir join (ws i) playlist ordered i m
                j cs c Fi J (strictly_latest_top c cs D L) Hi)
      as (m1 & P & _ & Tr & _).
    destruct (IH (S i) m1 ltac:(lia)) as (m2 & Lp & An).
    { intros s Hs. apply F. lia. }
    exists m2. cbn [forLoop]. unfold bind. rewrite P. split; [exact Lp|].
    rewrite An, Tr, announced_app. cbn [announced].
    rewrite (proj1 (delivery_trace_readings _ _ _ _ _ _)).
    cbn [repeat]. now rewrite <- app_assoc.
Qed.





Lemma pending_after_mark (h : Heap) (b : loc) :
  pending_breaking (update b set_played h) b = false
  /\ forall x, x <> b ->
       pending_breaking (update b set_played h) x = pending_breaking h x
       /\ update b set_played h x = h x.
Proof.
  unfold pending_breaking, has_priority, update. cbn [cell]. split.
  - rewrite Nat.eqb_refl. simpl. apply andb_false_r.
  - intros x Hx. apply Nat.eqb_neq in Hx. now rewrite Hx.
Qed.

(** When the store stays unreadable, the mark set on the pass's own
    object persists: the breaking object a step past the opening slot
    picks is no longer pending at the next step, every other object is as
    pending as it was, and the next step picks another pending breaking
    object of the snapshot or, when none is left, delivers the clip the
    base order has at its index. *)
Theorem failed_reloads_do_not_repeat_a_breaking_clip :
  forall (w w2 : World) (playlist : Playlist) (ordered : list loc) (i : nat)
         (m : Machine) (base base2 : loc),
    load_fails (playlistFile w) = true ->
    load_fails (playlistFile w2) = true ->
    (0 < i)%nat ->
    has_pending (heap m) (clips_of playlist) = true ->
    nth_error ordered i = Some base ->
    nth_error ordered (S i) = Some base2 ->
    exists b m' m'',
      In b (clips_of playlist)
      /\ pending_breaking (heap m) b = true
      /\ playStep queueDir join w playlist ordered i m = Ok (tt, m')
      /\ heap m' = update b set_played (heap m)
      /\ pending_breaking (heap m') b = false
      /\ (forall x, x <> b ->
            pending_breaking (heap m') x = pending_breaking (heap m) x)
      /\ playStep queueDir join w2 playlist ordered (S i) m' = Ok (tt, m'')
      /\ (if has_pending (heap m') (clips_of playlist) then
            exists b',
              b' <> b
              /\ In b' (clips_of playlist)
              /\ pending_breaking (heap m) b' = true
              /\ heap m'' = update b' set_played (heap m')
              /\ announced (trace m'')
                 = announced (trace m)
                     ++ [set_played (heap m b); set_played (heap m b')]
          else
            heap m'' = heap m'
            /\ announced (trace m'')
               = announced (trace m)
                   ++ [set_played (heap m b); heap m' base2]).
Proof.
  intros w w2 playlist ordered i m base base2 F F2 Hi HP N N2.
  destruct (playStep_fallback queueDir join (fun _ => w) playlist ordered
              i 0 m base F N) as (m' & R & _ & C & _).
  rewrite has_pending_candidates in HP.
  destruct (filter (pending_breaking (heap m))
                   (getOrderedClips (heap m) (Some playlist)))
    as [|b rest] eqn:E; [discriminate|].
  apply Nat.ltb_lt in Hi. rewrite Hi in C. destruct C as (I & H & T).
  assert (P : pending_breaking (heap m) b = true).
  { apply (candidate_iff (heap m) playlist b). rewrite E. now left. }
  destruct (pending_after_mark (heap m) b) as (Pb & Px).
  rewrite <- H in Pb.
  assert (A : announced (trace m')
              = announced (trace m) ++ [set_played (heap m b)]).
  { rewrite T, announced_app. cbn [announced].
    now rewrite (proj1 (delivery_trace_readings _ _ _ _ _ _)). }
  destruct (playStep_fallback queueDir join (fun _ => w2) playlist ordered
              (S i) 0 m' base2 F2 N2) as (m'' & R2 & _ & C2 & _).
  change (0 <? S i)%nat with true in C2. cbv iota in C2.
  exists b, m', m''.
  split; [exact I|]. split; [exact P|]. split; [exact R|].
  split; [exact H|]. split; [exact Pb|].
  split; [intros x Hx; rewrite H; apply (Px x Hx)|].
  split; [exact R2|].
  rewrite has_pending_candidates.
  destruct (filter (pending_breaking (heap m'))
                   (getOrderedClips (heap m') (Some playlist)))
    as [|b' rest'] eqn:E2.
  - destruct C2 as (H2 & T2). split; [exact H2|].
    rewrite T2, announced_app, A.
    rewrite (proj1 (delivery_trace_readings _ _ _ _ _ _)).
    now rewrite <- app_assoc.
  - destruct C2 as (I2 & H2 & T2).
    assert (P2 : pending_breaking (heap m') b' = true).
    { apply (candidate_iff (heap m') playlist b'). rewrite E2. now left. }
    assert (Nb : b' <> b) by (intros ->; congruence).
    destruct (Px b' Nb) as (Pe & He). rewrite <- H in Pe, He.
    exists b'. split; [exact Nb|]. split; [exact I2|].
    split; [congruence|]. split; [exact H2|].
    rewrite T2, announced_app, A. cbn [announced].
    rewrite (proj1 (delivery_trace_readings _ _ _ _ _ _)).
    now rewrite He, <- app_assoc.
Qed.

(* ================================================================== *)
(** ** Stopping and starting again                                    *)
(* ================================================================== *)

(** The signal handlers save the state with [running] cleared, and
    [loadState] brings that flag back like any other key: an engine
    started on the state file of an engine that was stopped by a signal
    never enters its loop; it returns at once, having read no playlist
    and played nothing, with the counters of the stopped engine. *)
Theorem restart_after_stop_plays_nothing :
  forall (m : Machine) (rounds : list Round) (now : string),
    exists m' doc,
      onSignal m = Ok (tt, m')
      /\ trace m' = trace m ++ [WriteState doc]
      /\ j_running doc = Some false
      /\ main queueDir join (Parsed doc) rounds (boot now)
         = Ok (tt, mkMachine (set_running false (engineState m))
                             emptyHeap []).
Proof.
  intros m rounds now. eexists _, _.
  split; [reflexivity|]. cbn [trace]. split; [reflexivity|].
  split; [reflexivity|].
  unfold main, bind, modifyState. cbn [boot engineState heap trace].
  destruct rounds; reflexivity.
Qed.

(* ================================================================== *)
(** ** The prune as an operation on documents                         *)
(* ================================================================== *)

(** Pruning is idempotent and leaves a store without breaking clips as
    it is: the document a prune writes, read by a second prune, is written
    again unchanged, and when the store holds no breaking clip the
    document written is the document read. *)
Theorem prune_is_idempotent :
  forall (w w2 : World) (m m2 : Machine) (j : PlaylistJson) (cs : list Clip),
    playlistFile w = Parsed (Some j) ->
    json_clips j = Some cs ->
    exists m' doc,
      prune w m = Ok (tt, m')
      /\ trace m' = trace m ++ [WritePlaylist doc]
      /\ (playlistFile w2 = Parsed (Some doc) ->
          exists m2',
            prune w2 m2 = Ok (tt, m2')
            /\ trace m2' = trace m2 ++ [WritePlaylist doc])
      /\ ((forall c, In c cs -> priority c <> "breaking"%string) -> doc = j).
Proof.
  intros w w2 m m2 j cs F J.
  rewrite (prune_parsed w m j cs F J). eexists _, _.
  split; [reflexivity|]. cbn [trace]. split; [reflexivity|]. split.
  - intros F2. rewrite (prune_parsed w2 m2 _ _ F2 eq_refl).
    eexists. split; [reflexivity|]. cbn [trace json_others].
    do 4 f_equal. rewrite filter_twice. f_equal. apply filter_ext. intros c.
    now destruct (negb _).
  - intros N. destruct j as [cl o]. simpl in *. subst cl. do 2 f_equal.
    apply filter_all. intros c Hc. apply negb_true_iff, String.eqb_neq.
    now apply N.
Qed.
End EngineExtras.

(* ================================================================== *)
(** ** Command line                                                   *)
(* ================================================================== *)

Lemma indexOf_first (x : string) (pre post : list string) :
  ~ In x pre ->
  indexOf x (pre ++ x :: post) = Z.of_nat (List.length pre).
Proof.
  induction pre as [|a pre IH]; intros N.
  - simpl. now rewrite String.eqb_refl.
  - cbn [app indexOf List.length].
    destruct (String.eqb a x) eqn:E.
    + apply String.eqb_eq in E. subst a. exfalso. apply N. now left.
    + rewrite IH by (intros H; apply N; now right).
      destruct (Z.of_nat (List.length pre) <? 0) eqn:Z0; [|lia].
      apply Z.ltb_lt in Z0. lia.
Qed.

Lemma includes_middle (x : string) (pre post : list string) :
  includes x (pre ++ x :: post) = true.
Proof.
  unfold includes. rewrite existsb_app. simpl.
  now rewrite String.eqb_refl, orb_true_r.
Qed.

Lemma includes_absent (x : string) (args : list string) :
  ~ In x args -> includes x args = false.
Proof.
  intros N. unfold includes.
  destruct (existsb (String.eqb x) args) eqn:E; [|reflexivity].
  apply existsb_exists in E. destruct E as (a & I & E).
  apply String.eqb_eq in E. subst a. contradiction.
Qed.

Lemma element_after (pre post : list string) (x : string) :
  element (pre ++ x :: post) (Z.of_nat (List.length pre) + 1)
  = hd_error post.
Proof.
  unfold element.
  destruct (Z.of_nat (List.length pre) + 1 <? 0) eqn:E;
    [apply Z.ltb_lt in E; lia|].
  replace (Z.to_nat (Z.of_nat (List.length pre) + 1))
    with (S (List.length pre)) by lia.
  rewrite nth_error_app2 by lia.
  replace (S (List.length pre) - List.length pre)%nat with 1%nat by lia.
  now destruct post.
Qed.

(** The queue directory is the argument that follows the first [--queue];
    a later [--queue] is not looked at, a [--queue] that ends the command
    line leaves the directory undefined, and without the flag the
    directory is the default one. *)
Theorem queueDir_of_first_flag :
  forall (fallback : string) (pre post : list string),
    ~ In "--queue"%string pre ->
    queueDir_of fallback (pre ++ "--queue"%string :: post) = hd_error post
    /\ queueDir_of fallback (pre ++ ["--queue"%string]) = None
    /\ queueDir_of fallback pre = Some fallback.
Proof.
  intros fallback pre post N. unfold queueDir_of.
  rewrite !includes_middle, !indexOf_first, !element_after by exact N.
  rewrite includes_absent by exact N. auto.
Qed.

(** A non-empty SEGMENT_STREAM_RTMP_URL wins over [--rtmp]; an unset or
    empty one leaves the choice to the argument after the first [--rtmp],
    and to the default URL when the flag is absent. *)
Theorem rtmpUrl_of_env_then_flag :
  forall (env : option string) (pre post : list string),
    ~ In "--rtmp"%string pre ->
    (env <> None -> env <> Some ""%string ->
     rtmpUrl_of env (pre ++ "--rtmp"%string :: post) = env)
    /\ rtmpUrl_of None (pre ++ "--rtmp"%string :: post) = hd_error post
    /\ rtmpUrl_of (Some ""%string) (pre ++ "--rtmp"%string :: post)
       = hd_error post
    /\ rtmpUrl_of None pre = Some "rtmp://localhost:1935/live/marvin"%string.
Proof.
  intros env pre post N. unfold rtmpUrl_of.
  rewrite !includes_middle, !indexOf_first, !element_after by exact N.
  rewrite includes_absent by exact N. repeat split.
  intros E1 E2. destruct env as [[|a s]|]; congruence.
Qed.

(* ================================================================== *)
(** ** Closed instances of the further properties                     *)
(* ================================================================== *)

(** The pinned and the normal clip around the ["urgent"] one: two of the
    three clips are ordered, none twice. *)
Lemma getOrderedClips_permutes_recognized_witness :
  let pl := fst (parsePlaylist playlist_with_urgent emptyHeap) in
  let h := snd (parsePlaylist playlist_with_urgent emptyHeap) in
  NoDup (clips_of pl)
  /\ NoDup (getOrderedClips h (Some pl))
  /\ Permutation (getOrderedClips h (Some pl)) [0%nat; 2%nat].
Proof.
  intros pl h.
  assert (N : NoDup (clips_of pl)).
  { change (clips_of pl) with [0%nat; 1%nat; 2%nat].
    repeat constructor; simpl; intuition discriminate. }
  destruct (getOrderedClips_permutes_recognized h pl) as (P & _ & D).
  split; [exact N|]. split; [exact (D N)|exact P].
Defined.

(** Marking [x] as played leaves the order of [x, y, z] as it was. *)
Lemma getOrderedClips_reads_three_keys_witness :
  let h := heap loaded_xyz in
  let h' := update 0%nat set_played h in
  same_order_keys h h' (clips_of pass_xyz)
  /\ getOrderedClips h' (Some pass_xyz) = getOrderedClips h (Some pass_xyz).
Proof.
  intros h h'.
  assert (S : same_order_keys h h' (clips_of pass_xyz)).
  { intros l _. unfold h', update. cbn [cell].
    destruct (Nat.eqb l 0) eqn:E; [|auto].
    apply Nat.eqb_eq in E. subst l. auto. }
  split; [exact S|].
  exact (proj1 (getOrderedClips_reads_three_keys h h' pass_xyz S)).
Defined.

(** The ordering scenario, ordered twice. *)
Lemma getOrderedClips_idempotent_witness :
  let pl := fst (parsePlaylist (ordering_scenario 10 20) emptyHeap) in
  let h := snd (parsePlaylist (ordering_scenario 10 20) emptyHeap) in
  dated h (clips_of pl) = true
  /\ getOrderedClips h (Some (mkPlaylist (Some (getOrderedClips h (Some pl)))
                                         []))
     = getOrderedClips h (Some pl).
Proof.
  intros pl h.
  assert (D : dated h (clips_of pl) = true) by reflexivity.
  split; [exact D|]. exact (getOrderedClips_idempotent h pl [] D).
Defined.

(** Step 0 of the pass over [x, y, z], ffmpeg closing with code 0: one clip
    played, no error. *)
Lemma playStep_counts_errors_witness :
  let w := world_with Absent in
  let ordered := getOrderedClips (heap loaded_xyz) (Some pass_xyz) in
  selectClip w pass_xyz ordered 0 loaded_xyz = Ok (0%nat, loaded_xyz)
  /\ exists m',
       playStep "queue" simple_join w pass_xyz ordered 0 loaded_xyz
       = Ok (tt, m')
       /\ clipsPlayed (engineState m') = 1
       /\ errors (engineState m') = 0.
Proof.
  intros w ordered.
  assert (S : selectClip w pass_xyz ordered 0 loaded_xyz
              = Ok (0%nat, loaded_xyz)) by reflexivity.
  split; [exact S|].
  destruct (playStep_counts_errors "queue" simple_join w pass_xyz ordered
              0%nat loaded_xyz 0%nat loaded_xyz S)
    as (m' & R & C & E & _).
  exists m'. split; [exact R|]. split; [exact C|exact E].
Defined.

(** Step 0 of the pass over [x, y, z]: the state file names [x] and index
    0 and still counts no clip. *)
Lemma state_file_lags_by_one_delivery_witness :
  let w := world_with Absent in
  let ordered := getOrderedClips (heap loaded_xyz) (Some pass_xyz) in
  selectClip w pass_xyz ordered 0 loaded_xyz = Ok (0%nat, loaded_xyz)
  /\ exists m' doc,
       playStep "queue" simple_join w pass_xyz ordered 0 loaded_xyz
       = Ok (tt, m')
       /\ state_writes (trace m') = [doc]
       /\ j_currentClipId doc = Some (Some "x"%string)
       /\ j_clipsPlayed doc = Some 0.
Proof.
  intros w ordered.
  assert (S : selectClip w pass_xyz ordered 0 loaded_xyz
              = Ok (0%nat, loaded_xyz)) by reflexivity.
  split; [exact S|].
  destruct (state_file_lags_by_one_delivery
              "queue" simple_join w pass_xyz ordered 0%nat loaded_xyz 0%nat
              loaded_xyz S)
    as (m' & doc & R & W & I & _ & C & _).
  exists m', doc. repeat split; assumption.
Defined.

(** Step 1 of the pass over [x, y, z], with [w] in the store. *)
Lemma step_announces_base_or_breaking_witness :
  let w := world_with (Parsed (Some playlist_xyzw)) in
  let ordered := getOrderedClips (heap loaded_xyz) (Some pass_xyz) in
  nth_error ordered 1 = Some 1%nat
  /\ (1 < next (heap loaded_xyz))%nat
  /\ exists m' c,
       playStep "queue" simple_join w pass_xyz ordered 1 loaded_xyz
       = Ok (tt, m')
       /\ announced (trace m') = [c].
Proof.
  intros w ordered.
  assert (N : nth_error ordered 1 = Some 1%nat) by reflexivity.
  assert (B : (1 < next (heap loaded_xyz))%nat)
    by (vm_compute; repeat constructor).
  destruct (step_announces_base_or_breaking
              "queue" simple_join w pass_xyz ordered 1%nat loaded_xyz 1%nat
              N B)
    as (m' & c & R & A & _).
  repeat split; try assumption. exists m', c. split; assumption.
Defined.

(** The pass over [x, y, z]: three clips played, one more loop. *)
Lemma runPass_accounts_witness :
  prunable (playlistFile (closing interruption)) = true
  /\ exists m',
       runPass "queue" simple_join interruption pass_xyz
               (getOrderedClips (heap loaded_xyz) (Some pass_xyz)) loaded_xyz
       = Ok (tt, m')
       /\ loopCount (engineState m') = 1
       /\ clipsPlayed (engineState m') = 3.
Proof.
  split; [reflexivity|].
  destruct (runPass_accounts
              "queue" simple_join interruption pass_xyz
              (getOrderedClips (heap loaded_xyz) (Some pass_xyz)) loaded_xyz
              eq_refl)
    as (m' & t & R & L & C & _).
  exists m'. split; [exact R|]. split; [exact L|exact C].
Defined.


(** A pass and a wait. *)
Lemma whileRunning_only_advances_witness :
  let rounds := [interruption;
                 mkRound (world_with Absent) (fun _ => world_with Absent)
                         (world_with Absent)] in
  Forall (fun r => prunable (playlistFile (closing r)) = true) rounds
  /\ exists m',
       whileRunning "queue" simple_join rounds (boot "2026-02-21T12:00:00Z")
       = Ok (tt, m')
       /\ running (engineState m') = true.
Proof.
  intros rounds.
  assert (F : Forall (fun r => prunable (playlistFile (closing r)) = true)
                     rounds) by (repeat constructor).
  split; [exact F|].
  destruct (whileRunning_only_advances
              "queue" simple_join rounds (boot "2026-02-21T12:00:00Z") F)
    as (m' & W & R & _).
  exists m'. split; [exact W|exact R].
Defined.

(** Steps 1 and 2 of the pass over [x, y, z], with [w] in the store. *)
Lemma breaking_clip_takes_every_later_slot_witness :
  breaking_dated (or_else (json_clips playlist_xyzw) [])
  /\ strictly_latest (clip "w" "breaking" None (Some 4))
                     (or_else (json_clips playlist_xyzw) [])
  /\ exists m',
       forLoop "queue" simple_join
               (fun _ => world_with (Parsed (Some playlist_xyzw))) pass_xyz
               (getOrderedClips (heap loaded_xyz) (Some pass_xyz)) 2 1
               loaded_xyz = Ok (tt, m')
       /\ announced (trace m')
          = [set_played (clip "w" "breaking" None (Some 4));
             set_played (clip "w" "breaking" None (Some 4))].
Proof.
  assert (D : breaking_dated (or_else (json_clips playlist_xyzw) [])).
  { intros c [<-|[<-|[<-|[<-|[]]]]] _; discriminate. }
  assert (L : strictly_latest (clip "w" "breaking" None (Some 4))
                              (or_else (json_clips playlist_xyzw) [])).
  { split; [do 3 right; left; reflexivity|]. split; [reflexivity|].
    intros x [<-|[<-|[<-|[<-|[]]]]] P _; try discriminate P. reflexivity. }
  split; [exact D|]. split; [exact L|].
  destruct (breaking_clip_takes_every_later_slot
              "queue" simple_join
              (fun _ => world_with (Parsed (Some playlist_xyzw))) pass_xyz
              (getOrderedClips (heap loaded_xyz) (Some pass_xyz))
              (clip "w" "breaking" None (Some 4)) 2%nat 1%nat loaded_xyz
              (Nat.lt_0_succ 0)
              (fun _ _ =>
                 ex_intro _ playlist_xyzw
                   (ex_intro _ _ (conj eq_refl (conj eq_refl (conj D L))))))
    as (m' & F & A).
  exists m'. split; [exact F|exact A].
Defined.


(** Steps 1 and 2 of the pass over [w, v, x] when the store has gone. *)
Lemma failed_reloads_do_not_repeat_a_breaking_clip_witness :
  let ordered :=
    getOrderedClips (heap loaded_two_breaking) (Some pass_two_breaking) in
  has_pending (heap loaded_two_breaking) (clips_of pass_two_breaking) = true
  /\ exists b m' m'',
       playStep "queue" simple_join (world_with Absent) pass_two_breaking
                ordered 1 loaded_two_breaking = Ok (tt, m')
       /\ playStep "queue" simple_join (world_with Garbled) pass_two_breaking
                   ordered 2 m' = Ok (tt, m'')
       /\ pending_breaking (heap loaded_two_breaking) b = true
       /\ pending_breaking (heap m') b = false.
Proof.
  intros ordered. split; [reflexivity|].
  destruct (failed_reloads_do_not_repeat_a_breaking_clip
              "queue" simple_join (world_with Absent) (world_with Garbled)
              pass_two_breaking ordered 1%nat loaded_two_breaking
              1%nat 0%nat eq_refl eq_refl (Nat.lt_0_succ 0)
              eq_refl eq_refl eq_refl)
    as (b & m' & m'' & _ & P & R1 & _ & Pb & _ & R2 & _).
  exists b, m', m''. repeat split; assumption.
Defined.

(** The prune of [x, y, z, w] writes [x, y, z]; the prune of that writes
    it again. *)
Lemma prune_is_idempotent_witness :
  exists m' m2',
    prune (world_with (Parsed (Some playlist_xyzw))) loaded_xyz = Ok (tt, m')
    /\ trace m' = [WritePlaylist playlist_xyz]
    /\ prune (world_with (Parsed (Some playlist_xyz))) loaded_xyz
       = Ok (tt, m2')
    /\ trace m2' = [WritePlaylist playlist_xyz].
Proof.
  destruct (prune_is_idempotent
              (world_with (Parsed (Some playlist_xyzw)))
              (world_with (Parsed (Some playlist_xyz)))
              loaded_xyz loaded_xyz playlist_xyzw _ eq_refl eq_refl)
    as (m' & doc & R & T & Again & _).
  assert (D : doc = playlist_xyz).
  { pose proof R as R'. vm_compute in R'. injection R' as <-.
    vm_compute in T. injection T as <-. reflexivity. }
  subst doc. destruct (Again eq_refl) as (m2' & R2 & T2).
  exists m', m2'. repeat split; assumption.
Defined.

(** [--rtmp u --queue /srv/queue --queue other] *)
Lemma queueDir_of_first_flag_witness :
  ~ In "--queue"%string ["--rtmp"; "rtmp://host/live"]%string
  /\ queueDir_of "/home/.segment-stream/queue"
                 ["--rtmp"; "rtmp://host/live"; "--queue"; "/srv/queue";
                  "--queue"; "other"]%string
     = Some "/srv/queue"%string.
Proof.
  assert (N : ~ In "--queue"%string ["--rtmp"; "rtmp://host/live"]%string)
    by (simpl; intuition discriminate).
  split; [exact N|].
  exact (proj1 (queueDir_of_first_flag
                  "/home/.segment-stream/queue"
                  ["--rtmp"; "rtmp://host/live"]%string
                  ["/srv/queue"; "--queue"; "other"]%string N)).
Defined.

(** The environment variable against [--rtmp]. *)
Lemma rtmpUrl_of_env_then_flag_witness :
  ~ In "--rtmp"%string ["--queue"; "q"]%string
  /\ rtmpUrl_of (Some "rtmp://env/live"%string)
                ["--queue"; "q"; "--rtmp"; "rtmp://flag/live"]%string
     = Some "rtmp://env/live"%string.
Proof.
  assert (N : ~ In "--rtmp"%string ["--queue"; "q"]%string)
    by (simpl; intuition discriminate).
  split; [exact N|].
  apply (proj1 (rtmpUrl_of_env_then_flag
                  (Some "rtmp://env/live"%string) ["--queue"; "q"]%string
                  ["rtmp://flag/live"]%string N));
    discriminate.
Defined.
